(** * leifdb: the Raft node state machine ([internal/node/node.go])

    A shallow embedding of the node's RPC handlers ([HandleVote],
    [HandleAppend]), of its election ([DoElection]), of the leader's
    commit-index advancement ([commitRecords]) and of the helpers they call,
    followed by the properties of the written specification that concern
    them.

    Conventions of the embedding:
    - an [int64] is a [Z]; every [int64] addition and subtraction of the
      source is written with [Int64.wrap], Go's two's-complement wrap-around
      (the [int] arithmetic on lengths and counts, [len(s) - 1] or
      [numNodes / 2 + 1], cannot overflow and is written exactly);
    - a pointer that may be nil is an [option]: the recorded vote, and the
      message-typed fields of a request or reply;
    - a Go run-time panic (nil dereference, index or slice bounds out of
      range) is the outcome [Panic]; a panic ends the handler, so the state
      it leaves behind is not observed;
    - a method on [*Node] takes the node and returns the node it leaves;
    - a loop is a [Fixpoint] on the number of iterations it can still make,
      computed from the state where the loop is entered;
    - the two files the node persists, and the key-value store it applies
      records to, are fields of the node's state; file-system calls succeed
      (on a failure the source ends the process through [log.Fatal]). *)

From Stdlib Require Import ZArith Lia ZifyBool.
From stdpp Require Import gmap strings list fin_maps.

Open Scope Z_scope.

(** ** 64-bit signed integers *)

Module Int64.

Definition min_int : Z := - 2 ^ 63.
Definition max_int : Z := 2 ^ 63 - 1.

(** The value an [int64] holds after an operation whose exact result is
    [z]. *)
Definition wrap (z : Z) : Z := (z + 2 ^ 63) mod 2 ^ 64 - 2 ^ 63.

Definition add (a b : Z) : Z := wrap (a + b).
Definition sub (a b : Z) : Z := wrap (a - b).

Definition in_range (z : Z) : Prop := min_int <= z <= max_int.

End Int64.

(** ** Go run-time behaviour: panics, indexing, slicing *)

Module Go.

Inductive panic : Set :=
| NilDereference
| IndexOutOfRange
| SliceBoundsOutOfRange.

Inductive outcome (A : Type) : Type :=
| Ok (a : A)
| Panic (p : panic).
Arguments Ok {A} a.
Arguments Panic {A} p.

(** Sequencing: a panic ends the computation. *)
#[global] Instance outcome_ret : MRet outcome := fun A a => Ok a.
#[global] Instance outcome_bind : MBind outcome :=
  fun A B k c =>
    match c with
    | Ok a => k a
    | Panic p => Panic p
    end.

(** [p.f] for a pointer [p] that may be nil. *)
Definition deref {A : Type} (p : option A) : outcome A :=
  match p with
  | Some a => Ok a
  | None => Panic NilDereference
  end.

(** [len(s)], converted to [int64]: a slice's length is a non-negative
    [int], so the conversion is exact. *)
Definition len {A : Type} (s : list A) : Z := Z.of_nat (length s).

(** [s[i]] *)
Definition index {A : Type} (s : list A) (i : Z) : outcome A :=
  if i <? 0 then Panic IndexOutOfRange
  else match s !! Z.to_nat i with
       | Some a => Ok a
       | None => Panic IndexOutOfRange
       end.

(** [s[low:]] *)
Definition slice_from {A : Type} (s : list A) (low : Z) : outcome (list A) :=
  if (low <? 0) || (len s <? low) then Panic SliceBoundsOutOfRange
  else Ok (drop (Z.to_nat low) s).

(** [s[:high]]; the bound Go checks is the capacity, which the embedding
    does not track: a [high] beyond the length is taken as out of range. *)
Definition slice_to {A : Type} (s : list A) (high : Z) : outcome (list A) :=
  if (high <? 0) || (len s <? high) then Panic SliceBoundsOutOfRange
  else Ok (take (Z.to_nat high) s).

End Go.

Import Go.

(** ** Messages and records of [api/raft.proto] *)

Module RaftNode.
(** [message Node] *)
Record t : Set := mk { Id : string; ClientAddr : string }.
End RaftNode.

Inductive Action : Set := SET | DEL.

Module LogRecord.
Record t : Set := mk {
  Term : Z;
  Action : Action;
  Key : string;
  Value : string
}.
End LogRecord.

Module TermRecord.
Record t : Set := mk { Term : Z; VotedFor : option RaftNode.t }.
End TermRecord.

Module VoteRequest.
Record t : Set := mk {
  Term : Z;
  Candidate : option RaftNode.t;
  LastLogIndex : Z;
  LastLogTerm : Z
}.
End VoteRequest.

Module VoteReply.
Record t : Set := mk {
  Term : Z;
  VoteGranted : bool;
  Node : option RaftNode.t
}.
End VoteReply.

Module AppendRequest.
Record t : Set := mk {
  Term : Z;
  Leader : option RaftNode.t;
  PrevLogIndex : Z;
  PrevLogTerm : Z;
  LeaderCommit : Z;
  Entries : list LogRecord.t
}.
End AppendRequest.

Module AppendReply.
Record t : Set := mk { Term : Z; Success : bool }.
End AppendReply.

(** ** The node *)

Inductive Role : Set := Leader | Follower.

Module ForeignNode.
(** The replication bookkeeping of a peer; its gRPC connection and client
    are outside the embedding. *)
Record t : Set := mk {
  NextIndex : Z;
  MatchIndex : Z;
  Available : bool
}.
End ForeignNode.

Module Database.
(** Modelled from the spec: the key-value store [db.Database] of package
    [internal/database], whose source is not among the files of the node;
    the specification gives it as a store with [Set(k,v)] and [Delete(k)],
    both infallible. *)
Definition t : Type := gmap string string.
Definition Set_ (k v : string) (d : t) : t := <[k := v]> d.
Definition Delete (k : string) (d : t) : t := delete k d.
Definition Get (k : string) (d : t) : option string := d !! k.
End Database.

(** [type ForeignNodeChecker func(string, map[string]*ForeignNode) bool] *)
Definition ForeignNodeChecker : Type :=
  string -> gmap string ForeignNode.t -> bool.

(** The contents of the two files of the data directory, [config.TermFile]
    and [config.LogFile]; [None] is a file that does not exist. *)
Record Disk : Type := mkDisk {
  TermFile : option TermRecord.t;
  LogFile : option (list LogRecord.t)
}.

(** [type Node struct]. [votedFor] is a pointer that may be nil; [Reset] is
    the number of signals sent to the channel of that name so far; [Log] is
    the slice [Log.Entries]; [disk] stands for the files behind [config]. The
    mutex is left out: a handler is followed from its call to its return. *)
Record Node : Type := mkNode {
  RaftNode : RaftNode.t;
  State : Role;
  Term : Z;
  votedFor : option RaftNode.t;
  Reset : nat;
  otherNodes : gmap string ForeignNode.t;
  CheckForeignNode : ForeignNodeChecker;
  AllowVote : bool;
  CommitIndex : Z;
  lastApplied : Z;
  Log : list LogRecord.t;
  Store : Database.t;
  disk : Disk
}.

(** Field updates ([n.f = v]). *)

Definition with_State (v : Role) (n : Node) : Node :=
  mkNode (RaftNode n) v (Term n) (votedFor n) (Reset n) (otherNodes n)
    (CheckForeignNode n) (AllowVote n) (CommitIndex n) (lastApplied n)
    (Log n) (Store n) (disk n).

Definition with_Term (v : Z) (n : Node) : Node :=
  mkNode (RaftNode n) (State n) v (votedFor n) (Reset n) (otherNodes n)
    (CheckForeignNode n) (AllowVote n) (CommitIndex n) (lastApplied n)
    (Log n) (Store n) (disk n).

Definition with_votedFor (v : option RaftNode.t) (n : Node) : Node :=
  mkNode (RaftNode n) (State n) (Term n) v (Reset n) (otherNodes n)
    (CheckForeignNode n) (AllowVote n) (CommitIndex n) (lastApplied n)
    (Log n) (Store n) (disk n).

Definition with_Reset (v : nat) (n : Node) : Node :=
  mkNode (RaftNode n) (State n) (Term n) (votedFor n) v (otherNodes n)
    (CheckForeignNode n) (AllowVote n) (CommitIndex n) (lastApplied n)
    (Log n) (Store n) (disk n).

Definition with_otherNodes (v : gmap string ForeignNode.t) (n : Node) : Node :=
  mkNode (RaftNode n) (State n) (Term n) (votedFor n) (Reset n) v
    (CheckForeignNode n) (AllowVote n) (CommitIndex n) (lastApplied n)
    (Log n) (Store n) (disk n).

Definition with_AllowVote (v : bool) (n : Node) : Node :=
  mkNode (RaftNode n) (State n) (Term n) (votedFor n) (Reset n) (otherNodes n)
    (CheckForeignNode n) v (CommitIndex n) (lastApplied n)
    (Log n) (Store n) (disk n).

Definition with_CommitIndex (v : Z) (n : Node) : Node :=
  mkNode (RaftNode n) (State n) (Term n) (votedFor n) (Reset n) (otherNodes n)
    (CheckForeignNode n) (AllowVote n) v (lastApplied n)
    (Log n) (Store n) (disk n).

Definition with_lastApplied (v : Z) (n : Node) : Node :=
  mkNode (RaftNode n) (State n) (Term n) (votedFor n) (Reset n) (otherNodes n)
    (CheckForeignNode n) (AllowVote n) (CommitIndex n) v
    (Log n) (Store n) (disk n).

Definition with_Log (v : list LogRecord.t) (n : Node) : Node :=
  mkNode (RaftNode n) (State n) (Term n) (votedFor n) (Reset n) (otherNodes n)
    (CheckForeignNode n) (AllowVote n) (CommitIndex n) (lastApplied n)
    v (Store n) (disk n).

Definition with_Store (v : Database.t) (n : Node) : Node :=
  mkNode (RaftNode n) (State n) (Term n) (votedFor n) (Reset n) (otherNodes n)
    (CheckForeignNode n) (AllowVote n) (CommitIndex n) (lastApplied n)
    (Log n) v (disk n).

Definition with_disk (v : Disk) (n : Node) : Node :=
  mkNode (RaftNode n) (State n) (Term n) (votedFor n) (Reset n) (otherNodes n)
    (CheckForeignNode n) (AllowVote n) (CommitIndex n) (lastApplied n)
    (Log n) (Store n) v.

(** ** Non-volatile state *)

(** [func (n *Node) RedirectLeader() string] *)
Definition RedirectLeader (n : Node) : string :=
  match votedFor n with
  | None => ""%string
  | Some v => RaftNode.ClientAddr v
  end.

(** [WriteTerm]: the term file is rewritten whole. *)
Definition WriteTerm (termRecord : TermRecord.t) (d : Disk) : Disk :=
  mkDisk (Some termRecord) (LogFile d).

(** [ReadTerm]: a missing file gives the initialized record. *)
Definition ReadTerm (d : Disk) : TermRecord.t :=
  match TermFile d with
  | Some record => record
  | None => TermRecord.mk 0 None
  end.

(** [func (n *Node) SetTerm(newTerm int64, votedFor *raft.Node) error] *)
Definition SetTerm (newTerm : Z) (vote : option RaftNode.t) (n : Node) : Node :=
  let n := with_Term newTerm n in
  let n := with_votedFor vote n in
  with_disk (WriteTerm (TermRecord.mk newTerm vote) (disk n)) n.

(** [WriteLogs] *)
Definition WriteLogs (logStore : list LogRecord.t) (d : Disk) : Disk :=
  mkDisk (TermFile d) (Some logStore).

(** [ReadLogs]: a missing file gives the empty log. *)
Definition ReadLogs (d : Disk) : list LogRecord.t :=
  match LogFile d with
  | Some logStore => logStore
  | None => []
  end.

(** [func (n *Node) resetElectionTimer()] *)
Definition resetElectionTimer (n : Node) : Node :=
  let n := with_State Follower n in
  with_Reset (S (Reset n)) n.

(** [func (n *Node) setLog(newLogs []*raft.LogRecord) (int64, error)] *)
Definition setLog (newLogs : list LogRecord.t) (n : Node) : Z * Node :=
  let idx := len newLogs - 1 in
  let n := with_disk (WriteLogs newLogs (disk n)) n in
  (idx, with_Log newLogs n).

(** ** Construction *)

Record NodeConfig : Set := mkNodeConfig {
  Id : string;
  ClientAddr : string;
  NodeIds : list string
}.

(** [NewForeignNode]: the bookkeeping a peer starts with (the dial does not
    block, and is taken to give a connection). *)
Definition NewForeignNode : ForeignNode.t := ForeignNode.mk 0 (-1) true.

(** [checkForeignNode] *)
Definition checkForeignNode : ForeignNodeChecker :=
  fun addr known =>
    match known !! addr with
    | Some _ => true
    | None => false
    end.

(** [func (n *Node) AddForeignNode(addr string)] *)
Definition AddForeignNode (addr : string) (n : Node) : Node :=
  with_otherNodes (<[addr := NewForeignNode]> (otherNodes n)) n.

(** [NewNode], started on the files [d] and the store [store]. *)
Definition NewNode (config : NodeConfig) (store : Database.t) (d : Disk) : Node :=
  let termRecord := ReadTerm d in
  let logStore := ReadLogs d in
  let n :=
    {| RaftNode := RaftNode.mk (Id config) (ClientAddr config);
       State := Follower;
       Term := TermRecord.Term termRecord;
       votedFor := TermRecord.VotedFor termRecord;
       Reset := 0%nat;
       otherNodes := ∅;
       CheckForeignNode := checkForeignNode;
       AllowVote := true;
       CommitIndex := -1;
       lastApplied := -1;
       Log := logStore;
       Store := store;
       disk := d |} in
  foldl (fun n addr => AddForeignNode addr n) n (NodeIds config).

(** ** Applying a record to the store *)

(** The body shared by the two application loops: [Store.Set] for a [SET]
    record, [Store.Delete] for a [DEL] record. *)
Definition applyToStore (rec : LogRecord.t) (n : Node) : Node :=
  match LogRecord.Action rec with
  | SET => with_Store (Database.Set_ (LogRecord.Key rec) (LogRecord.Value rec) (Store n)) n
  | DEL => with_Store (Database.Delete (LogRecord.Key rec) (Store n)) n
  end.

(** ** Elections *)

(** The answer of a peer to the [RequestVote] call this node sends it, as
    the gRPC client returns it; [None] is an error of the call (a timeout, a
    peer that cannot be reached). *)
Definition VoteTransport : Type := string -> VoteRequest.t -> option VoteReply.t.

(** [func (n *Node) requestVote(host string)], which returns the reply and
    the error of the call. *)
Definition requestVote (net : VoteTransport) (host : string) (n : Node)
  : outcome (option VoteReply.t * Node) :=
  let lastLogIndex := Int64.sub (len (Log n)) 1 in
  lastLogTerm ←
    (if lastLogIndex >=? 0 then
       rec ← index (Log n) lastLogIndex;
       Ok (LogRecord.Term rec)
     else Ok 0);
  let voteRequest :=
    VoteRequest.mk (Term n) (Some (RaftNode n)) lastLogIndex lastLogTerm in
  peer ← deref (otherNodes n !! host);
  let vote := net host voteRequest in
  let available := match vote with Some _ => true | None => false end in
  let peer := ForeignNode.mk (ForeignNode.NextIndex peer)
                (ForeignNode.MatchIndex peer) available in
  Ok (vote, with_otherNodes (<[host := peer]> (otherNodes n)) n).

(** What the goroutines of [DoElection] share: [numVotes], [maxTermSeen],
    [maxTermSeenSource]. *)
Record Tally : Type := mkTally {
  numVotes : Z;
  maxTermSeen : Z;
  maxTermSeenSource : option RaftNode.t
}.

(** The body of one goroutine of [DoElection]. *)
Definition collectVote (net : VoteTransport) (k : string)
    (acc : outcome (Tally * Node)) : outcome (Tally * Node) :=
  '(tally, n) ← acc;
  '(vote, n) ← requestVote net k n;
  match vote with
  | None => Ok (tally, n)
  | Some vote =>
      if VoteReply.VoteGranted vote then
        Ok (mkTally (numVotes tally + 1) (maxTermSeen tally)
              (maxTermSeenSource tally), n)
      else if VoteReply.Term vote >? maxTermSeen tally then
        Ok (mkTally (numVotes tally) (VoteReply.Term vote) (VoteReply.Node vote), n)
      else Ok (tally, n)
  end.

(** [func (n *Node) DoElection() bool]; the goroutines, which the source
    joins before it reads the tally, are taken one after the other. *)
Definition DoElection (net : VoteTransport) (n : Node) : outcome (bool * Node) :=
  let n := SetTerm (Int64.add (Term n) 1) (Some (RaftNode n)) n in
  let numNodes := Z.of_nat (size (otherNodes n)) + 1 in
  let majority := numNodes `quot` 2 + 1 in
  '(tally, n) ←
    map_fold (fun k _ acc => collectVote net k acc)
      (Ok (mkTally 1 (Term n) (votedFor n), n)) (otherNodes n);
  if numVotes tally <? majority then
    if maxTermSeen tally >? Term n then
      source ← deref (maxTermSeenSource tally);
      Ok (false, SetTerm (maxTermSeen tally) (Some source) n)
    else Ok (false, n)
  else
    let n := with_State Leader n in
    let n := with_AllowVote false n in
    let peers :=
      (fun peer => ForeignNode.mk (len (Log n)) (-1) (ForeignNode.Available peer))
        <$> otherNodes n in
    Ok (true, with_otherNodes peers n).

(** ** Leader side: advancing the commit index *)

(** The inner loop of [commitRecords]: one for self, one more for each peer
    whose [MatchIndex] has reached [lastIdx]. *)
Definition countMatching (lastIdx : Z) (peers : gmap string ForeignNode.t) : Z :=
  map_fold (fun _ f count => if ForeignNode.MatchIndex f >=? lastIdx
                             then count + 1 else count) 1 peers.

(** The outer loop of [commitRecords], [for lastIdx > n.CommitIndex]; it
    runs at most [lastIdx - n.CommitIndex] times, which [fuel] is. *)
Fixpoint commitScan (fuel : nat) (majority : Z) (lastIdx : Z) (n : Node) : Node :=
  match fuel with
  | O => n
  | S fuel =>
      if lastIdx >? CommitIndex n then
        let count := countMatching lastIdx (otherNodes n) in
        if count >=? majority then with_CommitIndex lastIdx n
        else commitScan fuel majority (Int64.sub lastIdx 1) n
      else n
  end.

(** The second loop of [commitRecords], [for n.lastApplied < n.CommitIndex];
    it runs [n.CommitIndex - n.lastApplied] times, which [fuel] is, unless a
    read of the log panics. *)
Fixpoint applyLoop (fuel : nat) (n : Node) : outcome Node :=
  match fuel with
  | O => Ok n
  | S fuel =>
      if lastApplied n <? CommitIndex n then
        let n := with_lastApplied (Int64.add (lastApplied n) 1) n in
        rec ← index (Log n) (lastApplied n);
        applyLoop fuel (applyToStore rec n)
      else Ok n
  end.

(** [func (n *Node) commitRecords()] *)
Definition commitRecords (n : Node) : outcome Node :=
  let numNodes := Z.of_nat (size (otherNodes n)) in
  let majority := numNodes `quot` 2 + 1 in
  let lastIdx := len (Log n) - 1 in
  let n := commitScan (Z.to_nat (lastIdx - CommitIndex n)) majority lastIdx n in
  applyLoop (Z.to_nat (CommitIndex n - lastApplied n)) n.

(** ** Votes *)

(** [func (n *Node) candidateLogUpToDate(cLogIndex int64, cLogTerm int64) bool];
    [||] and [&&] evaluate their right operand only when needed, and the
    arguments of the debug message are evaluated whether or not the message
    is printed. *)
Definition candidateLogUpToDate (cLogIndex cLogTerm : Z) (n : Node) : outcome bool :=
  let indexGreater := cLogIndex >? CommitIndex n in
  let indexEqual := cLogIndex =? CommitIndex n in
  let bothEmpty := (cLogIndex =? -1) && (CommitIndex n =? -1) in
  let indexPresent := cLogIndex <? len (Log n) in
  upToDate ←
    (if indexGreater || bothEmpty then Ok true
     else if indexEqual then
       rec ← index (Log n) cLogIndex;
       Ok (cLogTerm =? LogRecord.Term rec)
     else Ok false);
  _ ← (if negb upToDate && indexPresent
       then index (Log n) cLogIndex ≫= (fun _ => Ok ())
       else Ok ());
  Ok upToDate.

(** [func (n *Node) HandleVote(req *raft.VoteRequest) *raft.VoteReply]; its
    first statement logs [req.Candidate.Id]. *)
Definition HandleVote (req : VoteRequest.t) (n : Node) : outcome (VoteReply.t * Node) :=
  candidate ← deref (VoteRequest.Candidate req);
  '(vote, n) ←
    (if VoteRequest.Term req <? Term n then Ok (false, n)
     else if VoteRequest.Term req =? Term n then
       match State n with
       | Leader => Ok (false, SetTerm (Int64.add (Term n) 1) (Some (RaftNode n)) n)
       | Follower => Ok (false, n)
       end
     else if negb (CheckForeignNode n (RaftNode.Id candidate) (otherNodes n))
     then Ok (false, n)
     else
       upToDate ← candidateLogUpToDate (VoteRequest.LastLogIndex req)
                    (VoteRequest.LastLogTerm req) n;
       if negb upToDate then Ok (false, n)
       else if negb (AllowVote n) then Ok (false, n)
       else
         let n := resetElectionTimer n in
         Ok (true, SetTerm (VoteRequest.Term req) (Some candidate) n));
  Ok (VoteReply.mk (Term n) vote (Some (RaftNode n)), n).

(** ** Appends *)

(** [func (n *Node) validateAppend(term int64, leaderId string) bool] *)
Definition validateAppend (term : Z) (leaderId : string) (n : Node)
  : outcome (bool * Node) :=
  success ←
    (if term <? Term n then Ok false
     else if term =? Term n then
       vote ← deref (votedFor n);
       Ok (String.eqb leaderId (RaftNode.Id vote))
     else Ok true);
  if success : bool then Ok (true, resetElectionTimer n) else Ok (false, n).

(** The loop of [reconcileLogs] over the local entries after
    [body.PrevLogIndex], which gives [mismatchIdx]; [-1] is no mismatch. *)
Fixpoint findMismatch (body : AppendRequest.t)
    (overlappingEntries : list LogRecord.t) (i : nat) : outcome Z :=
  match overlappingEntries with
  | [] => Ok (-1)
  | rec :: rest =>
      if Z.of_nat i >=? len (AppendRequest.Entries body) then
        Ok (Int64.add (AppendRequest.PrevLogIndex body) (Z.of_nat i))
      else
        new ← index (AppendRequest.Entries body) (Z.of_nat i);
        if negb (LogRecord.Term rec =? LogRecord.Term new) then
          Ok (Int64.add (Int64.add (AppendRequest.PrevLogIndex body) 1) (Z.of_nat i))
        else findMismatch body rest (S i)
  end.

(** [func reconcileLogs(logStore *raft.LogStore, body *raft.AppendRequest)
    *raft.LogStore]; its last message logs [body.Leader.Id]. *)
Definition reconcileLogs (logStore : list LogRecord.t) (body : AppendRequest.t)
  : outcome (list LogRecord.t) :=
  mismatchIdx ←
    (if AppendRequest.PrevLogIndex body <? len logStore - 1 then
       overlappingEntries ←
         slice_from logStore (Int64.add (AppendRequest.PrevLogIndex body) 1);
       findMismatch body overlappingEntries 0
     else Ok (-1));
  logStore ←
    (if mismatchIdx >=? 0 then slice_to logStore mismatchIdx else Ok logStore);
  let offset := Int64.sub (len logStore - 1) (AppendRequest.PrevLogIndex body) in
  newLogs ← slice_from (AppendRequest.Entries body) offset;
  _ ← deref (AppendRequest.Leader body);
  Ok (logStore ++ newLogs).

(** The loop of [applyCommittedLogs], [for n.CommitIndex < commitIdx]; it
    runs [commitIdx - n.CommitIndex] times, which [fuel] is, unless a read of
    the log panics. *)
Fixpoint applyCommittedLoop (fuel : nat) (commitIdx : Z) (n : Node) : outcome Node :=
  match fuel with
  | O => Ok n
  | S fuel =>
      if CommitIndex n <? commitIdx then
        let n := with_CommitIndex (Int64.add (CommitIndex n) 1) n in
        rec ← index (Log n) (CommitIndex n);
        applyCommittedLoop fuel commitIdx (applyToStore rec n)
      else Ok n
  end.

(** [func (n *Node) applyCommittedLogs(commitIdx int64)] *)
Definition applyCommittedLogs (commitIdx : Z) (n : Node) : outcome Node :=
  if commitIdx >? CommitIndex n then
    let lastIndex := len (Log n) in
    let commitIdx := if commitIdx >? lastIndex then lastIndex else commitIdx in
    applyCommittedLoop (Z.to_nat (commitIdx - CommitIndex n)) commitIdx n
  else Ok n.

(** [func (n *Node) checkPrevious(prevIndex int64, prevTerm int64) bool] *)
Definition checkPrevious (prevIndex prevTerm : Z) (n : Node) : outcome bool :=
  if prevIndex <? 0 then Ok true
  else
    let inRange := prevIndex <? len (Log n) in
    rec ← index (Log n) prevIndex;
    let matches := LogRecord.Term rec =? prevTerm in
    Ok (inRange && matches).

(** [func (n *Node) HandleAppend(req *raft.AppendRequest) *raft.AppendReply];
    [req.Leader.Id] is read for the call of [validateAppend], and the
    log-match check is made whether or not the request is valid. *)
Definition HandleAppend (req : AppendRequest.t) (n : Node)
  : outcome (AppendReply.t * Node) :=
  leader ← deref (AppendRequest.Leader req);
  '(valid, n) ← validateAppend (AppendRequest.Term req) (RaftNode.Id leader) n;
  matched ← checkPrevious (AppendRequest.PrevLogIndex req)
              (AppendRequest.PrevLogTerm req) n;
  '(success, n) ←
    (if negb valid then Ok (false, n)
     else if negb matched then Ok (false, n)
     else
       n ← (if len (AppendRequest.Entries req) >? 0 then
              logStore ← reconcileLogs (Log n) req;
              let n := with_Log logStore n in
              Ok (snd (setLog (Log n) n))
            else Ok n);
       n ← applyCommittedLogs (AppendRequest.LeaderCommit req) n;
       Ok (true, n));
  let n :=
    if valid : bool then
      let n := if AppendRequest.Term req >? Term n
               then SetTerm (AppendRequest.Term req) (Some leader) n
               else n in
      resetElectionTimer n
    else n in
  Ok (AppendReply.mk (Term n) success, n).

(** ** Replication and client writes *)

(** The error values of the package; [ErrTransport] stands for the error a
    gRPC call returns (a deadline that passed, a peer that cannot be
    reached). A nil [error] is [None]. *)
Inductive error : Set :=
| ErrNotLeaderRecv
| ErrNotLeaderSend
| ErrExpiredTerm
| ErrAppendFailed
| ErrCommitFailed
| ErrAppendRangeMet
| ErrTransport.

(** [s[low:high]], with the same reading of the capacity as [slice_to]. *)
Definition slice_between {A : Type} (s : list A) (low high : Z)
  : outcome (list A) :=
  if (low <? 0) || (high <? low) || (len s <? high)
  then Panic SliceBoundsOutOfRange
  else Ok (take (Z.to_nat (high - low)) (drop (Z.to_nat low) s)).

(** [n.otherNodes[host].f = v]: the peer behind the pointer is replaced. *)
Definition setPeer (host : string) (peer : ForeignNode.t) (n : Node) : Node :=
  with_otherNodes (<[host := peer]> (otherNodes n)) n.

(** [func (n *Node) availability() (int, int)] *)
Definition availability (n : Node) : Z * Z :=
  map_fold (fun _ foreignNode '(available, total) =>
              (if ForeignNode.Available foreignNode then available + 1
               else available, total + 1))
    (1, 1) (otherNodes n).

Section Replication.

(** The peers as the leader sees them through [Client.AppendLogs]: a state
    of the world outside the node, and the answer to a call together with
    the world the call leaves; [None] is an error of the call. *)
Variable World : Type.
Variable AppendLogs :
  string -> AppendRequest.t -> World -> option AppendReply.t * World.

(** [func (n *Node) requestAppend(host string, term int64) error]. It calls
    itself after a rejection when [prevLogIndex > 0], with the peer's
    [MatchIndex] one lower: at most [prevLogIndex] times, which [fuel]
    bounds. *)
Fixpoint requestAppendLoop (fuel : nat) (host : string) (term : Z)
    (n : Node) (w : World) : outcome (option error * Node * World) :=
  peer ← deref (otherNodes n !! host);
  let prevLogIndex := ForeignNode.MatchIndex peer in
  let idx := len (Log n) in
  newEntries ← slice_between (Log n) (Int64.add prevLogIndex 1) idx;
  prevLogTerm ←
    (if prevLogIndex >=? 0 then
       rec ← index (Log n) prevLogIndex;
       Ok (LogRecord.Term rec)
     else Ok 0);
  let req :=
    AppendRequest.mk term (Some (RaftNode n)) prevLogIndex prevLogTerm
      (CommitIndex n) newEntries in
  match State n with
  | Follower => Ok (Some ErrNotLeaderSend, n, w)
  | Leader =>
      if negb (term =? Term n) then Ok (Some ErrExpiredTerm, n, w)
      else
        let '(reply, w) := AppendLogs host req w in
        match reply with
        | Some reply =>
            if AppendReply.Success reply then
              Ok (None,
                  setPeer host (ForeignNode.mk idx (Int64.sub idx 1) true) n, w)
            else if prevLogIndex >? 0 then
              match fuel with
              | S fuel =>
                  requestAppendLoop fuel host term
                    (setPeer host
                       (ForeignNode.mk (ForeignNode.NextIndex peer)
                          (Int64.sub prevLogIndex 1)
                          (ForeignNode.Available peer)) n) w
              | O => Ok (Some ErrAppendRangeMet, n, w)
              end
            else
              Ok (Some ErrAppendRangeMet,
                  setPeer host
                    (ForeignNode.mk (ForeignNode.NextIndex peer)
                       prevLogIndex false) n, w)
        | None =>
            Ok (Some ErrTransport,
                setPeer host
                  (ForeignNode.mk (ForeignNode.NextIndex peer)
                     prevLogIndex false) n, w)
        end
  end.

Definition requestAppend (host : string) (term : Z) (n : Node) (w : World)
  : outcome (option error * Node * World) :=
  let fuel :=
    match otherNodes n !! host with
    | Some peer => Z.to_nat (ForeignNode.MatchIndex peer)
    | None => O
    end in
  requestAppendLoop fuel host term n w.

(** The body of one goroutine of [SendAppend]. *)
Definition appendTo (term : Z) (k : string)
    (acc : outcome (Z * Node * World)) : outcome (Z * Node * World) :=
  '(numAppended, n, w) ← acc;
  '(err, n, w) ← requestAppend k term n w;
  match err with
  | Some _ => Ok (numAppended, n, w)
  | None => Ok (numAppended + 1, n, w)
  end.

(** [func (n *Node) SendAppend(retriesRemaining int, term int64) error]; the
    goroutines, joined before the count is read, are taken one after the
    other. It calls itself while [retriesRemaining > 0], which [fuel]
    bounds. *)
Fixpoint SendAppendLoop (fuel : nat) (retriesRemaining : Z) (term : Z)
    (n : Node) (w : World) : outcome (option error * Node * World) :=
  match State n with
  | Follower => Ok (Some ErrNotLeaderSend, n, w)
  | Leader =>
      let numNodes := Z.of_nat (size (otherNodes n)) in
      let majority := numNodes `quot` 2 + 1 in
      '(numAppended, n, w) ←
        map_fold (fun k _ acc => appendTo term k acc) (Ok (1, n, w))
          (otherNodes n);
      if numAppended >=? majority then
        n ← commitRecords n;
        Ok (None, n, w)
      else if retriesRemaining >? 0 then
        match fuel with
        | S fuel => SendAppendLoop fuel (retriesRemaining - 1) term n w
        | O => Ok (Some ErrAppendFailed, n, w)
        end
      else Ok (Some ErrAppendFailed, n, w)
  end.

Definition SendAppend (retriesRemaining : Z) (term : Z) (n : Node) (w : World)
  : outcome (option error * Node * World) :=
  SendAppendLoop (Z.to_nat retriesRemaining) retriesRemaining term n w.

(** [func (n *Node) applyRecord(record *raft.LogRecord) error] *)
Definition applyRecord (record : LogRecord.t) (n : Node) (w : World)
  : outcome (option error * Node * World) :=
  match State n with
  | Follower => Ok (Some ErrNotLeaderRecv, n, w)
  | Leader =>
      let newEntries := Log n ++ [record] in
      let '(idx, n) := setLog newEntries n in
      let currentTerm := Term n in
      '(err, n, w) ← SendAppend 3 currentTerm n w;
      match err with
      | Some e => Ok (Some e, n, w)
      | None =>
          if CommitIndex n <? idx then Ok (Some ErrCommitFailed, n, w)
          else Ok (None, n, w)
      end
  end.

(** [func (n *Node) Set(key string, value string) error] *)
Definition Set_ (key value : string) (n : Node) (w : World)
  : outcome (option error * Node * World) :=
  applyRecord (LogRecord.mk (Term n) SET key value) n w.

(** [func (n *Node) Delete(key string) error] *)
Definition Delete (key : string) (n : Node) (w : World)
  : outcome (option error * Node * World) :=
  applyRecord (LogRecord.mk (Term n) DEL key "") n w.

End Replication.

Arguments requestAppendLoop {World} AppendLogs fuel host term n w.
Arguments requestAppend {World} AppendLogs host term n w.
Arguments appendTo {World} AppendLogs term k acc.
Arguments SendAppendLoop {World} AppendLogs fuel retriesRemaining term n w.
Arguments SendAppend {World} AppendLogs retriesRemaining term n w.
Arguments applyRecord {World} AppendLogs record n w.
Arguments Set_ {World} AppendLogs key value n w.
Arguments Delete {World} AppendLogs key n w.

(** ** Descriptions used by the properties *)

(** The records of [records] applied to a store, first to last. *)
Definition applyAll (records : list LogRecord.t) (store : Database.t)
  : Database.t :=
  foldl (fun store rec =>
           match LogRecord.Action rec with
           | SET => Database.Set_ (LogRecord.Key rec) (LogRecord.Value rec) store
           | DEL => Database.Delete (LogRecord.Key rec) store
           end) store records.

(** The entries of [log] at the indices above [lo], up to [hi]. *)
Definition entriesBetween (log : list LogRecord.t) (lo hi : Z)
  : list LogRecord.t :=
  take (Z.to_nat (hi - lo)) (drop (Z.to_nat (lo + 1)) log).

(** The match index the leader keeps for each peer is -1 or an index of its
    log. *)
Definition peersInLog (n : Node) : Prop :=
  map_Forall (fun _ peer => -1 <= ForeignNode.MatchIndex peer < len (Log n))
    (otherNodes n).

(** What is on disk is what is in memory: a restart of the node reads back
    its term, its vote and its log. *)
Definition persisted (n : Node) : Prop :=
  ReadTerm (disk n) = TermRecord.mk (Term n) (votedFor n) /\
  ReadLogs (disk n) = Log n.

(** ** The predicates of the specification *)



(** The scan of the specification: the local entries after [prev_log_index]
    alongside the incoming ones, [j] entries having been passed; the result
    is the position, counted in entries after [prev_log_index], of the first
    local entry whose term differs or that no incoming entry matches. *)
Fixpoint mismatch_offset (local incoming : list LogRecord.t) (j : nat) : option nat :=
  match local, incoming with
  | [], _ => None
  | _ :: _, [] => Some j
  | rec :: local, new :: incoming =>
      if LogRecord.Term rec =? LogRecord.Term new
      then mismatch_offset local incoming (S j)
      else Some j
  end.

(** Log reconciliation as the specification words it: truncate at the
    mismatch point, then append the incoming entries from there on. *)
Definition reconcile_spec (log : list LogRecord.t) (prev_log_index : Z)
    (entries : list LogRecord.t) : list LogRecord.t :=
  let start := Z.to_nat (prev_log_index + 1) in
  match mismatch_offset (drop start log) entries 0 with
  | Some j => take (start + j) log ++ drop j entries
  | None => log ++ drop (length log - start) entries
  end.

(** The number of nodes, self counted, whose match index has reached [i]. *)
Definition matching (i : Z) (n : Node) : Z :=
  1 + Z.of_nat (size (filter (fun kv => i <= ForeignNode.MatchIndex kv.2)
                        (otherNodes n))).

(** The majority of the glossary: [floor(N/2)+1], [N] counting self. *)
Definition cluster_majority (n : Node) : Z :=
  (Z.of_nat (size (otherNodes n)) + 1) / 2 + 1.

Definition on_majority (i : Z) (n : Node) : Prop :=
  cluster_majority n <= matching i n.

(** ** The scenarios of the specification *)

Module Scenario.

Definition self : RaftNode.t := RaftNode.mk "self:16990" "self:8080".
Definition L : RaftNode.t := RaftNode.mk "L:16990" "L:8080".
Definition P2 : RaftNode.t := RaftNode.mk "P2:16990" "P2:8080".

Definition config : NodeConfig :=
  mkNodeConfig "self:16990" "self:8080" ["L:16990"; "P2:16990"]%string.

(** A data directory in which neither file exists yet. *)
Definition noFiles : Disk := mkDisk None None.

(** The node as [NewNode] makes it on first start. *)
Definition fresh : Node := NewNode config ∅ noFiles.

Definition kv : LogRecord.t := LogRecord.mk 7 SET "k" "v".

(** The state S3 starts from: term 7, vote for [L], empty log. *)
Definition S3_before : Node := SetTerm 7 (Some L) fresh.

Definition S3_request : AppendRequest.t :=
  AppendRequest.mk 7 (Some L) (-1) 0 (-1) [kv].

(** The state S3 leaves, from which S4 starts. *)
Definition S3_after : Node :=
  {| RaftNode := self;
     State := Follower;
     Term := 7;
     votedFor := Some L;
     Reset := 2;
     otherNodes := {[ "L:16990"%string := NewForeignNode;
                      "P2:16990"%string := NewForeignNode ]};
     CheckForeignNode := checkForeignNode;
     AllowVote := true;
     CommitIndex := -1;
     lastApplied := -1;
     Log := [kv];
     Store := ∅;
     disk := mkDisk (Some (TermRecord.mk 7 (Some L))) (Some [kv]) |}.

(** S1 and S2 start at term 5 with no vote recorded. *)
Definition S2_before : Node := SetTerm 5 None fresh.


Definition S2_request : VoteRequest.t := VoteRequest.mk 7 (Some P2) (-1) 0.

(** An append of the term one below the largest [int64], and a request for
    a vote in the largest. *)
Definition highTermRequest : AppendRequest.t :=
  AppendRequest.mk (Int64.max_int - 1) (Some L) (-1) 0 (-1) [].

Definition maxTermRequest : VoteRequest.t :=
  VoteRequest.mk Int64.max_int (Some P2) (-1) 0.

Definition S4_request : AppendRequest.t :=
  AppendRequest.mk 7 (Some L) 0 7 0 [].

Definition S6_log : list LogRecord.t :=
  [LogRecord.mk 1 SET "a" "1"; LogRecord.mk 1 SET "b" "2";
   LogRecord.mk 2 SET "c" "3"].

Definition S6_request : AppendRequest.t :=
  AppendRequest.mk 4 (Some L) 0 1 (-1) [LogRecord.mk 4 SET "b" "9"].

(** S6 starts at a term below the request's, with the three records. *)
Definition S6_before : Node := with_Log S6_log (SetTerm 3 (Some L) fresh).

(** An append like the one of S6, whose only entry has the term of the local
    entry at its index but another value. *)
Definition sameTermRequest : AppendRequest.t :=
  AppendRequest.mk 4 (Some L) 0 1 (-1) [LogRecord.mk 1 SET "b" "7"].

(** A leader of term 2, in a cluster of three, whose only record is of term 1
    and has reached both peers. *)
Definition leaderOldRecord : Node :=
  {| RaftNode := self;
     State := Leader;
     Term := 2;
     votedFor := Some self;
     Reset := 0;
     otherNodes := {[ "L:16990"%string := ForeignNode.mk 1 0 true;
                      "P2:16990"%string := ForeignNode.mk 1 0 true ]};
     CheckForeignNode := checkForeignNode;
     AllowVote := true;
     CommitIndex := -1;
     lastApplied := -1;
     Log := [LogRecord.mk 1 SET "a" "1"];
     Store := ∅;
     disk := mkDisk (Some (TermRecord.mk 2 (Some self)))
               (Some [LogRecord.mk 1 SET "a" "1"]) |}.

(** A leader in a cluster of two whose record has not reached its peer. *)
Definition leaderOfTwo : Node :=
  {| RaftNode := self;
     State := Leader;
     Term := 7;
     votedFor := Some self;
     Reset := 0;
     otherNodes := {[ "L:16990"%string := ForeignNode.mk 0 (-1) false ]};
     CheckForeignNode := checkForeignNode;
     AllowVote := true;
     CommitIndex := -1;
     lastApplied := -1;
     Log := [kv];
     Store := ∅;
     disk := mkDisk (Some (TermRecord.mk 7 (Some self))) (Some [kv]) |}.

(** Peers that all grant the vote they are asked for. *)
Definition votesGranted : VoteTransport :=
  fun host req =>
    Some (VoteReply.mk (VoteRequest.Term req) true (Some (RaftNode.mk host ""))).

(** The state S4 leaves: the record of S3 committed and applied. *)
Definition S4_after : Node :=
  with_Store (<["k"%string := "v"%string]> ∅) (with_CommitIndex 0 S3_after).

(** A candidate with an empty log asks for a vote in term 9. *)
Definition emptyLogVoteRequest : VoteRequest.t :=
  VoteRequest.mk 9 (Some P2) (-1) 0.

(** A heartbeat of term 9 from [P2]. *)
Definition higherTermHeartbeat : AppendRequest.t :=
  AppendRequest.mk 9 (Some P2) (-1) 0 (-1) [].


(** A leader of term 8 whose first entry differs from the one this node has
    committed at index 0. *)
Definition kw : LogRecord.t := LogRecord.mk 8 SET "k" "w".

Definition conflictingRequest : AppendRequest.t :=
  AppendRequest.mk 8 (Some P2) (-1) 0 0 [kw].

(** Peers that cannot be reached: every [AppendLogs] call fails. *)
Definition unreachablePeers
  : string -> AppendRequest.t -> unit -> option AppendReply.t * unit :=
  fun _ _ w => (None, w).

(** Peers that accept every append. *)
Definition acceptingPeers
  : string -> AppendRequest.t -> unit -> option AppendReply.t * unit :=
  fun _ req w => (Some (AppendReply.mk (AppendRequest.Term req) true), w).
End Scenario.

(** * Properties *)

(** ** Arithmetic and slices *)

Lemma wrap_in_range (z : Z) : Int64.in_range z -> Int64.wrap z = z.
Proof.
  unfold Int64.in_range, Int64.min_int, Int64.max_int, Int64.wrap.
  intros Hz. rewrite Z.mod_small; lia.
Qed.

Lemma wrap_bounds (z : Z) : Int64.in_range (Int64.wrap z).
Proof.
  unfold Int64.in_range, Int64.min_int, Int64.max_int, Int64.wrap.
  pose proof (Z.mod_pos_bound (z + 2 ^ 63) (2 ^ 64)). lia.
Qed.

Lemma wrap_max_succ : Int64.add Int64.max_int 1 = Int64.min_int.
Proof. reflexivity. Qed.

Lemma add_one_increases (z : Z) : z < Int64.max_int -> z < Int64.add z 1.
Proof.
  intros Hz. unfold Int64.add.
  destruct (Z.le_gt_cases Int64.min_int (z + 1)) as [Hlo | Hlo].
  - rewrite wrap_in_range; [lia | split; lia].
  - pose proof (wrap_bounds (z + 1)) as [Hw _]. lia.
Qed.

Lemma len_nonneg {A : Type} (s : list A) : 0 <= len s.
Proof. unfold len. lia. Qed.

Lemma index_Ok {A : Type} (s : list A) (i : Z) (a : A) :
  index s i = Ok a <-> 0 <= i /\ s !! Z.to_nat i = Some a.
Proof.
  unfold index. destruct (Z.ltb_spec i 0).
  - split; [discriminate | lia].
  - destruct (s !! Z.to_nat i) eqn:E; split; intros H'; try discriminate.
    + injection H' as <-. auto.
    + destruct H' as [_ [= <-]]. reflexivity.
    + destruct H' as [_ [=]].
Qed.

Lemma index_in_range {A : Type} (s : list A) (i : Z) :
  0 <= i < len s -> exists a, index s i = Ok a /\ s !! Z.to_nat i = Some a.
Proof.
  intros Hi. unfold len in Hi.
  destruct (lookup_lt_is_Some_2 s (Z.to_nat i)) as [a Ha]; [lia |].
  exists a. split; [apply index_Ok; split; [lia | exact Ha] | exact Ha].
Qed.

Lemma index_out_of_range {A : Type} (s : list A) (i : Z) :
  i < 0 \/ len s <= i -> index s i = Panic IndexOutOfRange.
Proof.
  intros Hi. unfold index, len in *. destruct (Z.ltb_spec i 0); [reflexivity |].
  rewrite (lookup_ge_None_2 s (Z.to_nat i)); [reflexivity | lia].
Qed.

Lemma slice_from_in_range {A : Type} (s : list A) (low : Z) :
  0 <= low <= len s -> slice_from s low = Ok (drop (Z.to_nat low) s).
Proof.
  intros Hl. unfold slice_from.
  destruct (Z.ltb_spec low 0); [lia |]. destruct (Z.ltb_spec (len s) low); [lia |].
  reflexivity.
Qed.

Lemma slice_from_negative {A : Type} (s : list A) (low : Z) :
  low < 0 -> slice_from s low = Panic SliceBoundsOutOfRange.
Proof.
  intros Hl. unfold slice_from. destruct (Z.ltb_spec low 0); [reflexivity | lia].
Qed.

Lemma slice_to_in_range {A : Type} (s : list A) (high : Z) :
  0 <= high <= len s -> slice_to s high = Ok (take (Z.to_nat high) s).
Proof.
  intros Hh. unfold slice_to.
  destruct (Z.ltb_spec high 0); [lia |]. destruct (Z.ltb_spec (len s) high); [lia |].
  reflexivity.
Qed.

(** ** What the helpers leave untouched *)

Lemma applyToStore_frame (rec : LogRecord.t) (n : Node) :
  Term (applyToStore rec n) = Term n /\
  votedFor (applyToStore rec n) = votedFor n /\
  Log (applyToStore rec n) = Log n /\
  CommitIndex (applyToStore rec n) = CommitIndex n /\
  lastApplied (applyToStore rec n) = lastApplied n.
Proof. unfold applyToStore. destruct (LogRecord.Action rec); repeat split. Qed.

Lemma applyToStore_peers (rec : LogRecord.t) (n : Node) :
  otherNodes (applyToStore rec n) = otherNodes n.
Proof. unfold applyToStore. destruct (LogRecord.Action rec); reflexivity. Qed.

Lemma applyCommittedLoop_frame (fuel : nat) (commitIdx : Z) (n n' : Node) :
  applyCommittedLoop fuel commitIdx n = Ok n' ->
  Term n' = Term n /\ votedFor n' = votedFor n /\ Log n' = Log n /\
  lastApplied n' = lastApplied n.
Proof.
  revert n. induction fuel as [| fuel IH]; intros n; cbn.
  - intros [= <-]. repeat split.
  - destruct (CommitIndex n <? commitIdx); [| intros [= <-]; repeat split].
    destruct (index (Log n) (Int64.add (CommitIndex n) 1)) as [rec | p]; cbn;
      [| discriminate].
    intros H. apply IH in H as (Ht & Hv & Hl & Ha).
    destruct (applyToStore_frame rec
                (with_CommitIndex (Int64.add (CommitIndex n) 1) n))
      as (Ht' & Hv' & Hl' & _ & Ha').
    rewrite Ht, Hv, Hl, Ha, Ht', Hv', Hl', Ha'. repeat split.
Qed.

Lemma applyCommittedLogs_frame (commitIdx : Z) (n n' : Node) :
  applyCommittedLogs commitIdx n = Ok n' ->
  Term n' = Term n /\ votedFor n' = votedFor n /\ Log n' = Log n /\
  lastApplied n' = lastApplied n.
Proof.
  unfold applyCommittedLogs. destruct (commitIdx >? CommitIndex n).
  - apply applyCommittedLoop_frame.
  - intros [= <-]. repeat split.
Qed.

Lemma applyLoop_frame (fuel : nat) (n n' : Node) :
  applyLoop fuel n = Ok n' ->
  CommitIndex n' = CommitIndex n /\ Log n' = Log n /\
  otherNodes n' = otherNodes n /\ Term n' = Term n.
Proof.
  revert n. induction fuel as [| fuel IH]; intros n; cbn.
  - intros [= <-]. repeat split.
  - destruct (lastApplied n <? CommitIndex n); [| intros [= <-]; repeat split].
    destruct (index (Log n) (Int64.add (lastApplied n) 1)) as [rec | p]; cbn;
      [| discriminate].
    intros H. apply IH in H as (Hc & Hl & Hp & Ht).
    destruct (applyToStore_frame rec
                (with_lastApplied (Int64.add (lastApplied n) 1) n))
      as (Ht' & _ & Hl' & Hc' & _).
    rewrite Hc, Hl, Hp, Ht, Ht', Hl', Hc', applyToStore_peers. repeat split.
Qed.

Lemma validateAppend_inv (term : Z) (leaderId : string) (valid : bool) (n n' : Node) :
  validateAppend term leaderId n = Ok (valid, n') ->
  (valid = true /\ Term n <= term /\ n' = resetElectionTimer n) \/
  (valid = false /\ n' = n).
Proof.
  unfold validateAppend.
  destruct (Z.ltb_spec term (Term n)); cbn.
  { intros [= <- <-]. right. split; reflexivity. }
  destruct (term =? Term n).
  - destruct (votedFor n) as [vote |]; cbn; [| discriminate].
    destruct (String.eqb leaderId (RaftNode.Id vote)); intros [= <- <-].
    + left. repeat split. lia.
    + right. split; reflexivity.
  - cbn. intros [= <- <-]. left. repeat split. lia.
Qed.

Lemma requestVote_frame (net : VoteTransport) (host : string) (n n' : Node)
    (vote : option VoteReply.t) :
  requestVote net host n = Ok (vote, n') ->
  RaftNode n' = RaftNode n /\ Term n' = Term n /\ votedFor n' = votedFor n /\
  Log n' = Log n.
Proof.
  unfold requestVote.
  destruct (Int64.sub (len (Log n)) 1 >=? 0);
    [destruct (index (Log n) (Int64.sub (len (Log n)) 1)); cbn; [| discriminate] | cbn];
    (destruct (otherNodes n !! host); cbn; [| discriminate]);
    intros [= _ <-]; repeat split.
Qed.

Lemma collectVote_frame (net : VoteTransport) (k : string)
    (acc : outcome (Tally * Node)) (tally' : Tally) (n' : Node) :
  collectVote net k acc = Ok (tally', n') ->
  exists tally n,
    acc = Ok (tally, n) /\
    RaftNode n' = RaftNode n /\ Term n' = Term n /\ votedFor n' = votedFor n /\
    Log n' = Log n.
Proof.
  unfold collectVote. destruct acc as [[tally n] | p]; cbn; [| discriminate].
  destruct (requestVote net k n) as [[vote n1] | p] eqn:Hvote; cbn; [| discriminate].
  apply requestVote_frame in Hvote. intros H. exists tally, n. split; [reflexivity |].
  destruct vote as [vote |];
    [destruct (VoteReply.VoteGranted vote);
     [| destruct (VoteReply.Term vote >? maxTermSeen tally)] |];
    injection H as _ <-; exact Hvote.
Qed.

Lemma collectVotes_frame (net : VoteTransport) (tally0 : Tally) (n0 : Node)
    (peers : gmap string ForeignNode.t) (tally' : Tally) (n' : Node) :
  map_fold (fun k _ acc => collectVote net k acc) (Ok (tally0, n0)) peers
  = Ok (tally', n') ->
  RaftNode n' = RaftNode n0 /\ Term n' = Term n0 /\ votedFor n' = votedFor n0 /\
  Log n' = Log n0.
Proof.
  revert tally' n'.
  apply (map_fold_weak_ind
           (fun r (_ : gmap string ForeignNode.t) =>
              forall tally' n', r = Ok (tally', n') ->
                RaftNode n' = RaftNode n0 /\ Term n' = Term n0 /\
                votedFor n' = votedFor n0 /\ Log n' = Log n0)).
  - intros tally' n' [= _ <-]. repeat split.
  - intros k peer m r _ IH tally' n' Hstep.
    apply collectVote_frame in Hstep as (tally & n & -> & Hr & Ht & Hv & Hl).
    destruct (IH tally n eq_refl) as (Hr0 & Ht0 & Hv0 & Hl0).
    rewrite Hr, Ht, Hv, Hl. repeat split; assumption.
Qed.

(** ** Elections and [RedirectLeader] *)

(** A node that wins its election is Leader with its own vote recorded, so
    [RedirectLeader] gives it its own client address. *)
Lemma DoElection_elected (net : VoteTransport) (n n' : Node) :
  DoElection net n = Ok (true, n') ->
  State n' = Leader /\ AllowVote n' = false /\
  Term n' = Int64.add (Term n) 1 /\
  votedFor n' = Some (RaftNode n) /\
  RedirectLeader n' = RaftNode.ClientAddr (RaftNode n).
Proof.
  unfold DoElection.
  match goal with
  | |- context [map_fold ?f ?b ?m] =>
      destruct (map_fold f b m) as [[tally n1] | p] eqn:Hfold; cbn;
      [| discriminate]
  end.
  apply collectVotes_frame in Hfold as (Hr & Ht & Hv & _). cbn in Hr, Ht, Hv.
  destruct (numVotes tally <? _).
  - destruct (maxTermSeen tally >? Term n1);
      [destruct (maxTermSeenSource tally); cbn |]; discriminate.
  - intros [= <-]. unfold RedirectLeader. cbn. rewrite Hv, Ht. repeat split.
Qed.

(** C9, as the specification has it, fails: the node that wins the election
    it starts from the state S3 leaves is Leader, and [RedirectLeader] gives
    it its own client address, not the empty string. *)
Lemma RedirectLeader_leader_not_empty :
  exists n',
    DoElection Scenario.votesGranted Scenario.S3_after = Ok (true, n') /\
    State n' = Leader /\
    RedirectLeader n' = "self:8080"%string /\
    RedirectLeader n' <> ""%string.
Proof.
  eexists. split; [reflexivity |]. split; [reflexivity |].
  split; [reflexivity | discriminate].
Qed.

(** C9, amended: whatever the role, [RedirectLeader] returns the client
    address of the recorded vote when there is one, and the empty string when
    there is none. *)
Theorem RedirectLeader_recorded_vote (n : Node) :
  (forall v, votedFor n = Some v -> RedirectLeader n = RaftNode.ClientAddr v) /\
  (votedFor n = None -> RedirectLeader n = ""%string).
Proof.
  unfold RedirectLeader. split.
  - intros v ->. reflexivity.
  - intros ->. reflexivity.
Qed.

Lemma RedirectLeader_recorded_vote_witness :
  RedirectLeader Scenario.S3_after = "L:8080"%string /\
  RedirectLeader Scenario.fresh = ""%string.
Proof.
  split.
  - apply (proj1 (RedirectLeader_recorded_vote Scenario.S3_after) Scenario.L).
    reflexivity.
  - apply (proj2 (RedirectLeader_recorded_vote Scenario.fresh)). reflexivity.
Defined.

(** ** Votes *)

(** [checkForeignNode], the check [NewNode] installs and no handler replaces,
    accepts exactly the keys of [otherNodes]. *)
Lemma checkForeignNode_known (addr : string) (known : gmap string ForeignNode.t) :
  checkForeignNode addr known = true <-> is_Some (known !! addr).
Proof.
  unfold checkForeignNode. destruct (known !! addr); split.
  - eauto.
  - reflexivity.
  - discriminate.
  - intros [? [=]].
Qed.

Lemma AddForeignNodes_checker (addrs : list string) (n : Node) :
  CheckForeignNode (foldl (fun n addr => AddForeignNode addr n) n addrs)
  = CheckForeignNode n.
Proof.
  revert n. induction addrs as [| addr addrs IH]; intros n; cbn.
  - reflexivity.
  - rewrite IH. reflexivity.
Qed.

Lemma NewNode_checker (config : NodeConfig) (store : Database.t) (d : Disk) :
  CheckForeignNode (NewNode config store d) = checkForeignNode.
Proof. unfold NewNode. rewrite AddForeignNodes_checker. reflexivity. Qed.







(** ** The term across a handler *)

(** C2, as the specification has it, fails. The fresh node takes the term
    [2^63 - 2] from an append, wins the election it starts next, and is
    Leader at the largest [int64] term; asked for a vote in that term it
    steps its term by one, which wraps around to the smallest [int64]. *)
Lemma HandleVote_term_wraps :
  exists reply1 n1 n2 reply3 n3,
    HandleAppend Scenario.highTermRequest Scenario.fresh = Ok (reply1, n1) /\
    DoElection Scenario.votesGranted n1 = Ok (true, n2) /\
    HandleVote Scenario.maxTermRequest n2 = Ok (reply3, n3) /\
    Term n2 = Int64.max_int /\
    Term n3 = Int64.min_int /\
    ~ (Term n2 <= Term n3).
Proof.
  eexists _, _, _, _, _.
  split; [vm_compute; reflexivity |].
  split; [vm_compute; reflexivity |].
  split; [vm_compute; reflexivity |].
  split; [vm_compute; reflexivity |].
  split; [vm_compute; reflexivity |].
  vm_compute. intros H. apply H. reflexivity.
Qed.

(** C2, amended: a term below the largest [int64] is not decreased by
    [HandleVote], and no term is decreased by [HandleAppend], whenever the
    handler returns. *)
Theorem term_never_decreases (n : Node) :
  (Term n < Int64.max_int ->
   forall req,
     match HandleVote req n with
     | Ok (_, n') => Term n <= Term n'
     | Panic _ => True
     end) /\
  (forall req,
     match HandleAppend req n with
     | Ok (_, n') => Term n <= Term n'
     | Panic _ => True
     end).
Proof.
  split.
  - intros Hmax req. unfold HandleVote.
    destruct (VoteRequest.Candidate req) as [candidate |]; cbn; [| exact I].
    destruct (Z.ltb_spec (VoteRequest.Term req) (Term n)); cbn; [lia |].
    destruct (Z.eqb_spec (VoteRequest.Term req) (Term n)); cbn.
    { destruct (State n); cbn; [| lia].
      pose proof (add_one_increases (Term n) Hmax). lia. }
    destruct (CheckForeignNode n (RaftNode.Id candidate) (otherNodes n)); cbn; [| lia].
    destruct (candidateLogUpToDate (VoteRequest.LastLogIndex req)
                (VoteRequest.LastLogTerm req) n) as [[|] | p]; cbn;
      [| lia | exact I].
    destruct (AllowVote n); cbn; lia.
  - intros req. unfold HandleAppend.
    destruct (AppendRequest.Leader req) as [leader |]; cbn; [| exact I].
    destruct (validateAppend (AppendRequest.Term req) (RaftNode.Id leader) n)
      as [[valid n1] | p] eqn:Hvalid; cbn; [| exact I].
    apply validateAppend_inv in Hvalid.
    destruct (checkPrevious (AppendRequest.PrevLogIndex req)
                (AppendRequest.PrevLogTerm req) n1) as [matched | p]; cbn;
      [| exact I].
    destruct Hvalid as [(-> & Hle & ->) | (-> & ->)]; cbn; [| lia].
    destruct matched; cbn.
    + destruct (len (AppendRequest.Entries req) >? 0);
        [match goal with
         | |- context [reconcileLogs ?l ?b] =>
             destruct (reconcileLogs l b) as [logStore | p]; cbn; [| exact I]
         end | cbn];
        match goal with
        | |- context [applyCommittedLogs ?c ?m] =>
            destruct (applyCommittedLogs c m) as [n3 | p] eqn:Happly; cbn;
            [apply applyCommittedLogs_frame in Happly as (Ht & _); cbn in Ht
            | exact I]
        end;
        destruct (AppendRequest.Term req >? Term n3) eqn:Hgt; cbn; lia.
    + destruct (AppendRequest.Term req >? Term n) eqn:Hgt; cbn; lia.
Qed.

Lemma term_never_decreases_witness :
  match HandleVote Scenario.S2_request Scenario.S2_before with
  | Ok (_, n') => Term Scenario.S2_before <= Term n'
  | Panic _ => True
  end.
Proof.
  apply (proj1 (term_never_decreases Scenario.S2_before)). reflexivity.
Defined.

(** ** The log-match check *)

(** What [checkPrevious] computes: the entry is read before [inRange] is
    looked at, so an index at or past the end of the log is a panic. *)
Lemma checkPrevious_cases (prevIndex prevTerm : Z) (n : Node) :
  (prevIndex < 0 -> checkPrevious prevIndex prevTerm n = Ok true) /\
  (forall rec, 0 <= prevIndex -> Log n !! Z.to_nat prevIndex = Some rec ->
     checkPrevious prevIndex prevTerm n = Ok (LogRecord.Term rec =? prevTerm)) /\
  (len (Log n) <= prevIndex ->
     checkPrevious prevIndex prevTerm n = Panic IndexOutOfRange).
Proof.
  unfold checkPrevious. repeat split.
  - intros H. destruct (Z.ltb_spec prevIndex 0); [reflexivity | lia].
  - intros rec H0 Hrec. destruct (Z.ltb_spec prevIndex 0); [lia |].
    rewrite (proj2 (index_Ok _ _ _) (conj H0 Hrec)). cbn.
    apply lookup_lt_Some in Hrec. unfold len.
    destruct (Z.ltb_spec prevIndex (Z.of_nat (length (Log n)))); [reflexivity | lia].
  - intros H. pose proof (len_nonneg (Log n)).
    destruct (Z.ltb_spec prevIndex 0); [lia |].
    rewrite index_out_of_range by lia. reflexivity.
Qed.

(** C7: with one record in the log (the state S3 leaves), an append whose
    [prevLogIndex] is 1 is not answered with [success=false]: the check reads
    [Log.Entries[1]] and the handler panics. *)
Theorem checkPrevious_past_end_panics :
  checkPrevious 1 7 Scenario.S3_after = Panic IndexOutOfRange /\
  HandleAppend (AppendRequest.mk 7 (Some Scenario.L) 1 7 (-1) []) Scenario.S3_after
  = Panic IndexOutOfRange.
Proof. split; reflexivity. Qed.

(** ** Validation of an append *)

(** The same-term check on any node that has no vote recorded. *)
Lemma validateAppend_unset_vote (leaderId : string) (n : Node) :
  votedFor n = None ->
  validateAppend (Term n) leaderId n = Panic NilDereference.
Proof.
  intros Hv. unfold validateAppend.
  destruct (Z.ltb_spec (Term n) (Term n)); [lia |].
  rewrite Z.eqb_refl, Hv. reflexivity.
Qed.

(** C8: on the freshly made node (term 0, no vote recorded) an append of
    term 0 is not rejected: [validateAppend] reads [n.votedFor.Id] of the nil
    vote and the handler panics. *)
Theorem HandleAppend_unset_vote_panics :
  Term Scenario.fresh = 0 /\ votedFor Scenario.fresh = None /\
  HandleAppend (AppendRequest.mk 0 (Some Scenario.L) (-1) 0 (-1) []) Scenario.fresh
  = Panic NilDereference.
Proof. repeat split; reflexivity. Qed.

(** With a vote recorded, an append of the current term from another leader
    is rejected and the node is left as it was, as long as the log-match
    check, which runs all the same, does not panic. *)
Lemma HandleAppend_impostor (req : AppendRequest.t) (n : Node) (leader vote : RaftNode.t) :
  AppendRequest.Leader req = Some leader ->
  votedFor n = Some vote ->
  AppendRequest.Term req = Term n ->
  RaftNode.Id leader <> RaftNode.Id vote ->
  AppendRequest.PrevLogIndex req < len (Log n) ->
  HandleAppend req n = Ok (AppendReply.mk (Term n) false, n).
Proof.
  intros Hl Hv Ht Hid Hprev. unfold HandleAppend. rewrite Hl. cbn.
  unfold validateAppend. rewrite Ht, Hv.
  destruct (Z.ltb_spec (Term n) (Term n)); [lia |]. rewrite Z.eqb_refl. cbn.
  apply String.eqb_neq in Hid. rewrite Hid. cbn.
  destruct (checkPrevious_cases (AppendRequest.PrevLogIndex req)
              (AppendRequest.PrevLogTerm req) n) as (Hneg & Hin & _).
  destruct (Z.lt_ge_cases (AppendRequest.PrevLogIndex req) 0) as [H0 | H0].
  - rewrite (Hneg H0). reflexivity.
  - destruct (index_in_range (Log n) (AppendRequest.PrevLogIndex req)) as (rec & _ & Hrec);
      [lia |].
    rewrite (Hin rec H0 Hrec). reflexivity.
Qed.

(** ** Applying commits on a follower *)

(** The loop of [applyCommittedLogs] run up to the length of the log reads
    the entry past the last one. *)
Lemma applyCommittedLoop_past_end (fuel : nat) (n : Node) :
  -1 <= CommitIndex n < len (Log n) ->
  len (Log n) <= Int64.max_int ->
  len (Log n) - CommitIndex n <= Z.of_nat fuel ->
  applyCommittedLoop fuel (len (Log n)) n = Panic IndexOutOfRange.
Proof.
  revert n. induction fuel as [| fuel IH]; intros n Hci Hmax Hfuel; [lia |].
  cbn [applyCommittedLoop].
  destruct (Z.ltb_spec (CommitIndex n) (len (Log n))); [| lia].
  assert (Hadd : Int64.add (CommitIndex n) 1 = CommitIndex n + 1).
  { unfold Int64.add. apply wrap_in_range.
    unfold Int64.in_range, Int64.min_int, Int64.max_int in *. lia. }
  cbn. rewrite Hadd.
  destruct (Z.eq_dec (CommitIndex n + 1) (len (Log n))) as [Hend | Hin].
  - rewrite index_out_of_range by lia. reflexivity.
  - destruct (index_in_range (Log n) (CommitIndex n + 1)) as (rec & Hrec & _); [lia |].
    rewrite Hrec. cbn.
    destruct (applyToStore_frame rec (with_CommitIndex (CommitIndex n + 1) n))
      as (_ & _ & Hl & Hc & _). cbn in Hl, Hc.
    rewrite <- Hl. apply IH; rewrite ?Hl, ?Hc; lia.
Qed.

(** Every [leaderCommit] at or past the length of the log makes
    [applyCommittedLogs] panic, on a state that keeps
    [-1 <= CommitIndex < len(log)]. *)
Lemma applyCommittedLogs_past_end (commitIdx : Z) (n : Node) :
  -1 <= CommitIndex n < len (Log n) ->
  len (Log n) <= Int64.max_int ->
  len (Log n) <= commitIdx ->
  applyCommittedLogs commitIdx n = Panic IndexOutOfRange.
Proof.
  intros Hci Hmax Hc. unfold applyCommittedLogs.
  destruct (Z.gtb_spec commitIdx (CommitIndex n)); [| lia].
  assert ((if commitIdx >? len (Log n) then len (Log n) else commitIdx)
          = len (Log n)) as ->.
  { destruct (Z.gtb_spec commitIdx (len (Log n))); lia. }
  apply applyCommittedLoop_past_end; lia.
Qed.

Lemma applyCommittedLoop_in_range (fuel : nat) (commitIdx : Z) (n : Node) :
  -1 <= CommitIndex n ->
  commitIdx < len (Log n) ->
  len (Log n) <= Int64.max_int ->
  commitIdx - CommitIndex n <= Z.of_nat fuel ->
  exists n',
    applyCommittedLoop fuel commitIdx n = Ok n' /\
    CommitIndex n' = Z.max (CommitIndex n) commitIdx.
Proof.
  revert n. induction fuel as [| fuel IH]; intros n Hci Hc Hmax Hfuel;
    cbn [applyCommittedLoop].
  - exists n. split; [reflexivity | lia].
  - destruct (Z.ltb_spec (CommitIndex n) commitIdx); [| exists n; split; [reflexivity | lia]].
    assert (Hadd : Int64.add (CommitIndex n) 1 = CommitIndex n + 1).
    { unfold Int64.add. apply wrap_in_range.
      unfold Int64.in_range, Int64.min_int, Int64.max_int in *. lia. }
    cbn. rewrite Hadd.
    destruct (index_in_range (Log n) (CommitIndex n + 1)) as (rec & Hrec & _); [lia |].
    rewrite Hrec. cbn.
    destruct (applyToStore_frame rec (with_CommitIndex (CommitIndex n + 1) n))
      as (_ & _ & Hl & Hci' & _). cbn in Hl, Hci'.
    destruct (IH (applyToStore rec (with_CommitIndex (CommitIndex n + 1) n)))
      as (n' & Hn' & Hmaxn'); rewrite ?Hl, ?Hci'; try lia.
    exists n'. split; [exact Hn' |]. rewrite Hmaxn', Hci'. lia.
Qed.

(** Below the length of the log, [applyCommittedLogs] returns with
    [CommitIndex] at the larger of its old value and [leaderCommit];
    [lastApplied] and the log are as they were. *)
Lemma applyCommittedLogs_in_range (commitIdx : Z) (n : Node) :
  -1 <= CommitIndex n ->
  commitIdx < len (Log n) ->
  len (Log n) <= Int64.max_int ->
  exists n',
    applyCommittedLogs commitIdx n = Ok n' /\
    CommitIndex n' = Z.max (CommitIndex n) commitIdx /\
    lastApplied n' = lastApplied n /\ Log n' = Log n.
Proof.
  intros Hci Hc Hmax.
  assert (Hframe : forall n', applyCommittedLogs commitIdx n = Ok n' ->
                              lastApplied n' = lastApplied n /\ Log n' = Log n).
  { intros n' H. apply applyCommittedLogs_frame in H as (_ & _ & Hl & Ha). auto. }
  unfold applyCommittedLogs in *.
  destruct (Z.gtb_spec commitIdx (CommitIndex n)).
  - destruct (Z.gtb_spec commitIdx (len (Log n))); [lia |].
    destruct (applyCommittedLoop_in_range
                (Z.to_nat (commitIdx - CommitIndex n)) commitIdx n)
      as (n' & Hn' & Hmaxn'); try lia.
    exists n'. split; [exact Hn' |]. split; [exact Hmaxn' |]. apply Hframe, Hn'.
  - exists n. split; [reflexivity |]. split; [lia |]. split; reflexivity.
Qed.

(** C6: in the state S3 leaves (one record in the log), an append with
    [leaderCommit = 1], the length of the log, makes [applyCommittedLogs] read
    [Log.Entries[1]]: the handler panics. *)
Theorem applyCommittedLogs_reads_past_end :
  len (Log Scenario.S3_after) = 1 /\
  applyCommittedLogs 1 Scenario.S3_after = Panic IndexOutOfRange /\
  HandleAppend (AppendRequest.mk 7 (Some Scenario.L) 0 7 1 []) Scenario.S3_after
  = Panic IndexOutOfRange.
Proof. repeat split; reflexivity. Qed.

(** S3: the first record arrives on the empty log. *)
Lemma S3_append :
  HandleAppend Scenario.S3_request Scenario.S3_before
  = Ok (AppendReply.mk 7 true, Scenario.S3_after).
Proof. reflexivity. Qed.

(** C5, as the specification has it, fails: S4 leaves [lastApplied] at -1. *)
Lemma S4_lastApplied_not_advanced :
  ~ (exists n',
       HandleAppend Scenario.S4_request Scenario.S3_after
       = Ok (AppendReply.mk 7 true, n') /\
       CommitIndex n' = 0 /\ lastApplied n' = 0 /\
       Store n' !! "k"%string = Some "v"%string).
Proof.
  intros (n' & H & _ & Hla & _). vm_compute in H. injection H as <-.
  discriminate Hla.
Qed.

(** C5, amended: from the state S3 leaves, the append of S4 is answered
    [AppendReply{term=7, success=true}]; afterwards [CommitIndex] is 0, the
    store holds [k=v], and [lastApplied], which [HandleAppend] never writes,
    is still -1. *)
Theorem S4_commit_applies (n : Node) (leader : RaftNode.t) :
  Term n = 7 -> votedFor n = Some leader -> Log n = [Scenario.kv] ->
  CommitIndex n = -1 -> lastApplied n = -1 -> Store n = ∅ ->
  exists n',
    HandleAppend (AppendRequest.mk 7 (Some leader) 0 7 0 []) n
    = Ok (AppendReply.mk 7 true, n') /\
    CommitIndex n' = 0 /\ lastApplied n' = -1 /\
    Store n' !! "k"%string = Some "v"%string.
Proof.
  destruct n as [self state term vote reset peers checker allow commit applied
                   entries store files]; cbn.
  intros -> -> -> -> -> ->.
  unfold HandleAppend, validateAppend; cbn. rewrite String.eqb_refl. cbn.
  eexists. split; [reflexivity |]. cbn. repeat split.
Qed.

Lemma S4_commit_applies_witness :
  exists n',
    HandleAppend Scenario.S4_request Scenario.S3_after
    = Ok (AppendReply.mk 7 true, n') /\
    CommitIndex n' = 0 /\ lastApplied n' = -1 /\
    Store n' !! "k"%string = Some "v"%string.
Proof.
  apply (S4_commit_applies Scenario.S3_after Scenario.L); reflexivity.
Defined.

(** ** Log reconciliation *)

Lemma mismatch_offset_Some (local incoming : list LogRecord.t) (j m : nat) :
  mismatch_offset local incoming j = Some m ->
  (j <= m < j + length local)%nat /\ (m <= j + length incoming)%nat.
Proof.
  revert incoming j. induction local as [| rec local IH]; intros incoming j; cbn.
  - discriminate.
  - destruct incoming as [| new incoming]; cbn.
    + intros [= <-]. lia.
    + destruct (LogRecord.Term rec =? LogRecord.Term new).
      * intros H. apply IH in H. lia.
      * intros [= <-]. lia.
Qed.

Lemma mismatch_offset_None (local incoming : list LogRecord.t) (j : nat) :
  mismatch_offset local incoming j = None ->
  (length local <= length incoming)%nat.
Proof.
  revert incoming j. induction local as [| rec local IH]; intros incoming j; cbn.
  - lia.
  - destruct incoming as [| new incoming]; cbn; [discriminate |].
    destruct (LogRecord.Term rec =? LogRecord.Term new); [| discriminate].
    intros H. apply IH in H. lia.
Qed.

(** The loop of the code against the scan of the specification: where the
    local log has entries no incoming entry matches, the code's mismatch
    index is one below the position of the first of them. *)
Lemma findMismatch_mismatch_offset (body : AppendRequest.t)
    (overlappingEntries : list LogRecord.t) (i : nat) :
  -1 <= AppendRequest.PrevLogIndex body ->
  AppendRequest.PrevLogIndex body + 1 + Z.of_nat i + len overlappingEntries
  <= Int64.max_int ->
  (i <= length (AppendRequest.Entries body))%nat ->
  findMismatch body overlappingEntries i
  = Ok (match mismatch_offset overlappingEntries
                (drop i (AppendRequest.Entries body)) i with
        | None => -1
        | Some j =>
            if (length (AppendRequest.Entries body) <=? j)%nat
            then AppendRequest.PrevLogIndex body + Z.of_nat j
            else AppendRequest.PrevLogIndex body + 1 + Z.of_nat j
        end).
Proof.
  intros Hprev. revert i.
  induction overlappingEntries as [| rec rest IH]; intros i Hmax Hi; cbn.
  - reflexivity.
  - unfold len in *. cbn [length] in Hmax.
    destruct (Z.geb_spec (Z.of_nat i) (Z.of_nat (length (AppendRequest.Entries body))))
      as [Hge | Hlt].
    + assert (i = length (AppendRequest.Entries body)) as Hi' by lia.
      rewrite drop_ge by lia. rewrite <- Hi' at 1.
      rewrite Nat.leb_refl. unfold Int64.add. rewrite wrap_in_range; [reflexivity |].
      unfold Int64.in_range, Int64.min_int, Int64.max_int in *. lia.
    + destruct (index_in_range (AppendRequest.Entries body) (Z.of_nat i))
        as (new & Hnew & Hlook); [unfold len; lia |].
      rewrite Hnew. cbn. rewrite Nat2Z.id in Hlook.
      rewrite (drop_S _ _ _ Hlook).
      destruct (LogRecord.Term rec =? LogRecord.Term new); cbn.
      * apply IH; lia.
      * destruct (Nat.leb_spec (length (AppendRequest.Entries body)) i); [lia |].
        unfold Int64.add.
        rewrite (wrap_in_range (AppendRequest.PrevLogIndex body + 1));
          [rewrite wrap_in_range; [reflexivity |] |];
          unfold Int64.in_range, Int64.min_int, Int64.max_int in *; lia.
Qed.

(** What the code of [reconcileLogs] returns on the appends whose
    [prevLogIndex] is -1 or an index of the log, and that have entries: where
    the local log has entries past the incoming ones, it is cut one entry
    before the first of them and the last incoming entry is appended. *)
Lemma reconcileLogs_result (logStore : list LogRecord.t) (body : AppendRequest.t) :
  is_Some (AppendRequest.Leader body) ->
  -1 <= AppendRequest.PrevLogIndex body < len logStore ->
  len logStore <= Int64.max_int ->
  AppendRequest.Entries body <> [] ->
  let start := Z.to_nat (AppendRequest.PrevLogIndex body + 1) in
  let entries := AppendRequest.Entries body in
  reconcileLogs logStore body
  = Ok (match mismatch_offset (drop start logStore) entries 0 with
        | None => logStore ++ drop (length logStore - start) entries
        | Some j =>
            if (length entries <=? j)%nat
            then take (start + j - 1) logStore ++ drop (j - 1) entries
            else take (start + j) logStore ++ drop j entries
        end).
Proof.
  intros [leader Hleader] Hprev Hmax Hne start entries.
  assert (Hlen : (0 < length entries)%nat).
  { subst entries. destruct (AppendRequest.Entries body); [congruence | cbn; lia]. }
  unfold reconcileLogs. fold entries. unfold len in *.
  assert (Hwrap1 : Int64.add (AppendRequest.PrevLogIndex body) 1
                   = AppendRequest.PrevLogIndex body + 1).
  { unfold Int64.add. apply wrap_in_range.
    unfold Int64.in_range, Int64.min_int, Int64.max_int in *. lia. }
  assert (Hmis :
            (if AppendRequest.PrevLogIndex body <? Z.of_nat (length logStore) - 1
             then slice_from logStore (Int64.add (AppendRequest.PrevLogIndex body) 1)
                  ≫= (fun overlappingEntries => findMismatch body overlappingEntries 0)
             else Ok (-1))
            = Ok (match mismatch_offset (drop start logStore) entries 0 with
                  | None => -1
                  | Some j =>
                      if (length entries <=? j)%nat
                      then AppendRequest.PrevLogIndex body + Z.of_nat j
                      else AppendRequest.PrevLogIndex body + 1 + Z.of_nat j
                  end)).
  { destruct (Z.ltb_spec (AppendRequest.PrevLogIndex body)
                (Z.of_nat (length logStore) - 1)) as [Hlt | Hge].
    - rewrite Hwrap1, slice_from_in_range by (unfold len; lia). cbn.
      fold start. rewrite findMismatch_mismatch_offset.
      + reflexivity.
      + lia.
      + unfold len. rewrite length_drop. subst start. lia.
      + lia.
    - rewrite drop_ge by (subst start; lia). reflexivity. }
  rewrite Hmis. clear Hmis. cbn.
  destruct (mismatch_offset (drop start logStore) entries 0) as [j |] eqn:Hj.
  - apply mismatch_offset_Some in Hj as [Hj1 Hj2].
    rewrite length_drop in Hj1. cbn in Hj2.
    destruct (Nat.leb_spec (length entries) j) as [Hextra | Hdiffer].
    + destruct (Z.geb_spec (AppendRequest.PrevLogIndex body + Z.of_nat j) 0); [| lia].
      rewrite slice_to_in_range by (unfold len; subst start; lia). cbn.
      unfold len. rewrite length_take.
      unfold Int64.sub. rewrite wrap_in_range
        by (unfold Int64.in_range, Int64.min_int, Int64.max_int in *; subst start; lia).
      rewrite slice_from_in_range by (unfold len; subst start; lia). cbn.
      rewrite Hleader. cbn. do 3 f_equal; subst start; lia.
    + destruct (Z.geb_spec (AppendRequest.PrevLogIndex body + 1 + Z.of_nat j) 0); [| lia].
      rewrite slice_to_in_range by (unfold len; subst start; lia). cbn.
      unfold len. rewrite length_take.
      unfold Int64.sub. rewrite wrap_in_range
        by (unfold Int64.in_range, Int64.min_int, Int64.max_int in *; subst start; lia).
      rewrite slice_from_in_range by (unfold len; subst start; lia). cbn.
      rewrite Hleader. cbn. do 3 f_equal; subst start; lia.
  - apply mismatch_offset_None in Hj. rewrite length_drop in Hj. cbn.
    unfold Int64.sub. rewrite wrap_in_range
      by (unfold Int64.in_range, Int64.min_int, Int64.max_int in *; subst start; lia).
    rewrite slice_from_in_range by (unfold len; subst start; lia). cbn.
    rewrite Hleader. cbn. do 3 f_equal. subst start. lia.
Qed.

Lemma reconcileLogs_names_leader (logStore logStore' : list LogRecord.t)
    (body : AppendRequest.t) :
  reconcileLogs logStore body = Ok logStore' ->
  is_Some (AppendRequest.Leader body).
Proof.
  unfold reconcileLogs.
  match goal with
  | |- context [mbind _ ?c] => destruct c as [mismatchIdx | p]; cbn; [| discriminate]
  end.
  match goal with
  | |- context [mbind _ ?c] => destruct c as [cut | p]; cbn; [| discriminate]
  end.
  match goal with
  | |- context [mbind _ ?c] => destruct c as [newLogs | p]; cbn; [| discriminate]
  end.
  destruct (AppendRequest.Leader body) as [leader |]; cbn; [eauto | discriminate].
Qed.

(** A [prevLogIndex] below -1 passes the log-match check and makes the
    reconciliation slice the log from a negative index. *)
Lemma reconcileLogs_negative_prev (logStore : list LogRecord.t)
    (body : AppendRequest.t) :
  Int64.min_int <= AppendRequest.PrevLogIndex body < -1 ->
  reconcileLogs logStore body = Panic SliceBoundsOutOfRange.
Proof.
  intros Hprev. unfold reconcileLogs. pose proof (len_nonneg logStore).
  destruct (Z.ltb_spec (AppendRequest.PrevLogIndex body) (len logStore - 1)); [| lia].
  rewrite slice_from_negative; [reflexivity |].
  unfold Int64.add. rewrite wrap_in_range; [lia |].
  unfold Int64.in_range, Int64.min_int, Int64.max_int in *. lia.
Qed.

(** C10: on every append that has passed the log-match check
    ([prevLogIndex] is negative or an index of the local log) and has entries,
    the log [reconcileLogs] returns agrees with the previous one at every
    index up to [prevLogIndex]; and it does return one when [prevLogIndex] is
    -1 or an index of the log and the request names its leader, whose id
    [HandleAppend] has read. [prevLogIndex] is an [int64] and the length of
    the log is one a Go slice can have. *)
Theorem reconcileLogs_keeps_prefix (logStore : list LogRecord.t)
    (body : AppendRequest.t) :
  Int64.min_int <= AppendRequest.PrevLogIndex body < len logStore ->
  len logStore <= Int64.max_int ->
  AppendRequest.Entries body <> [] ->
  (forall logStore',
     reconcileLogs logStore body = Ok logStore' ->
     forall i : nat,
       Z.of_nat i <= AppendRequest.PrevLogIndex body ->
       logStore' !! i = logStore !! i) /\
  (is_Some (AppendRequest.Leader body) ->
   -1 <= AppendRequest.PrevLogIndex body ->
   exists logStore', reconcileLogs logStore body = Ok logStore').
Proof.
  intros Hprev Hmax Hne. split.
  2:{ intros Hleader Hprev'. rewrite reconcileLogs_result by (try assumption; lia).
      eexists. reflexivity. }
  intros logStore' Hok i Hi.
  destruct (Z.lt_ge_cases (AppendRequest.PrevLogIndex body) (-1)) as [Hneg | Hprev'].
  { rewrite reconcileLogs_negative_prev in Hok by lia. discriminate. }
  pose proof (reconcileLogs_names_leader _ _ _ Hok) as Hleader.
  rewrite reconcileLogs_result in Hok by (try assumption; lia).
  injection Hok as <-.
  set (start := Z.to_nat (AppendRequest.PrevLogIndex body + 1)).
  assert (Hstart : (i < start)%nat) by (subst start; lia).
  assert (Hlog : (i < length logStore)%nat) by (unfold len in *; lia).
  destruct (mismatch_offset (drop start logStore) (AppendRequest.Entries body) 0)
    as [j |] eqn:Hj.
  - apply mismatch_offset_Some in Hj as [Hj1 Hj2]. cbn in Hj2.
    assert (0 < length (AppendRequest.Entries body))%nat.
    { destruct (AppendRequest.Entries body); [congruence | cbn; lia]. }
    destruct (Nat.leb_spec (length (AppendRequest.Entries body)) j).
    + rewrite lookup_app_l by (rewrite length_take; lia).
      apply lookup_take_lt. lia.
    + rewrite lookup_app_l by (rewrite length_take; lia).
      apply lookup_take_lt. lia.
  - apply lookup_app_l. exact Hlog.
Qed.

Lemma reconcileLogs_keeps_prefix_witness :
  (forall logStore',
     reconcileLogs Scenario.S6_log Scenario.S6_request = Ok logStore' ->
     logStore' !! 0%nat = Scenario.S6_log !! 0%nat) /\
  (exists logStore',
     reconcileLogs Scenario.S6_log Scenario.S6_request = Ok logStore').
Proof.
  destruct (reconcileLogs_keeps_prefix Scenario.S6_log Scenario.S6_request)
    as [Hprefix Hreturns].
  - split; vm_compute; [discriminate | reflexivity].
  - vm_compute. discriminate.
  - discriminate.
  - split.
    + intros logStore' Hok. apply (Hprefix logStore' Hok 0%nat).
      vm_compute. discriminate.
    + apply Hreturns.
      * exists Scenario.L. reflexivity.
      * vm_compute. discriminate.
Defined.

(** Where the code and the specification's wording of reconciliation part:
    only where the local log has entries past the incoming ones, and the
    entry the code cuts and appends again differs from the local one. *)
Lemma reconcileLogs_agrees_with_spec (logStore : list LogRecord.t)
    (body : AppendRequest.t) :
  is_Some (AppendRequest.Leader body) ->
  -1 <= AppendRequest.PrevLogIndex body < len logStore ->
  len logStore <= Int64.max_int ->
  AppendRequest.Entries body <> [] ->
  let start := Z.to_nat (AppendRequest.PrevLogIndex body + 1) in
  let entries := AppendRequest.Entries body in
  (mismatch_offset (drop start logStore) entries 0 = Some (length entries) ->
   logStore !! (start + length entries - 1)%nat = entries !! (length entries - 1)%nat) ->
  reconcileLogs logStore body
  = Ok (reconcile_spec logStore (AppendRequest.PrevLogIndex body) entries).
Proof.
  intros Hleader Hprev Hmax Hne start entries Hsame.
  rewrite reconcileLogs_result by assumption.
  unfold reconcile_spec. fold start. fold entries.
  assert (Hlen : (0 < length entries)%nat).
  { subst entries. destruct (AppendRequest.Entries body); [congruence | cbn; lia]. }
  destruct (mismatch_offset (drop start logStore) entries 0) as [j |] eqn:Hj;
    [| reflexivity].
  destruct (Nat.leb_spec (length entries) j) as [Hextra | Hdiffer]; [| reflexivity].
  pose proof (mismatch_offset_Some _ _ _ _ Hj) as [Hj1 Hj2].
  rewrite length_drop in Hj1. cbn in Hj2.
  assert (j = length entries) as -> by lia.
  specialize (Hsame eq_refl).
  destruct (lookup_lt_is_Some_2 entries (length entries - 1)) as [new Hnew]; [lia |].
  rewrite Hnew in Hsame.
  replace (start + length entries)%nat with (S (start + length entries - 1)) by lia.
  rewrite (take_S_r _ _ _ Hsame).
  rewrite (drop_S _ _ _ Hnew).
  replace (S (length entries - 1)) with (length entries) by lia.
  rewrite <- app_assoc.
  replace (S (start + length entries - 1) - 1)%nat
    with (start + length entries - 1)%nat by lia.
  reflexivity.
Qed.

(** S6: the literal scenario of the specification. *)
Lemma S6_reconcile :
  reconcileLogs Scenario.S6_log Scenario.S6_request
  = Ok [LogRecord.mk 1 SET "a" "1"; LogRecord.mk 4 SET "b" "9"] /\
  reconcile_spec Scenario.S6_log 0 [LogRecord.mk 4 SET "b" "9"]
  = [LogRecord.mk 1 SET "a" "1"; LogRecord.mk 4 SET "b" "9"].
Proof. split; reflexivity. Qed.

(** C4: on the log of S6, an append after index 0 whose one entry has the
    term of the local entry at index 1 finds the local log longer than the
    incoming entries. The specification cuts at index 2, the first local
    entry past the incoming ones, and keeps the local entry at index 1; the
    code cuts at index 1 and appends the incoming entry in its place. *)
Theorem reconcileLogs_cuts_one_early :
  reconcile_spec Scenario.S6_log 0 (AppendRequest.Entries Scenario.sameTermRequest)
  = [LogRecord.mk 1 SET "a" "1"; LogRecord.mk 1 SET "b" "2"] /\
  reconcileLogs Scenario.S6_log Scenario.sameTermRequest
  = Ok [LogRecord.mk 1 SET "a" "1"; LogRecord.mk 1 SET "b" "7"] /\
  exists n',
    HandleAppend Scenario.sameTermRequest Scenario.S6_before
    = Ok (AppendReply.mk 4 true, n') /\
    Log n' = [LogRecord.mk 1 SET "a" "1"; LogRecord.mk 1 SET "b" "7"].
Proof.
  split; [reflexivity |]. split; [reflexivity |].
  eexists. split; reflexivity.
Qed.

(** ** The leader's commit index *)

Lemma countMatching_filter (lastIdx : Z) (peers : gmap string ForeignNode.t) :
  countMatching lastIdx peers
  = 1 + Z.of_nat (size (filter (fun kv => lastIdx <= ForeignNode.MatchIndex kv.2) peers)).
Proof.
  unfold countMatching.
  apply (map_fold_weak_ind
           (fun r (m : gmap string ForeignNode.t) =>
              r = 1 + Z.of_nat (size (filter
                     (fun kv => lastIdx <= ForeignNode.MatchIndex kv.2) m)))).
  - rewrite map_filter_empty, map_size_empty. reflexivity.
  - intros k f m r Hk ->.
    rewrite map_filter_insert. cbn.
    destruct (decide (lastIdx <= ForeignNode.MatchIndex f)) as [Hle | Hgt].
    + rewrite map_size_insert_None by (apply map_lookup_filter_None; left; exact Hk).
      destruct (Z.geb_spec (ForeignNode.MatchIndex f) lastIdx); lia.
    + rewrite delete_id by exact Hk.
      destruct (Z.geb_spec (ForeignNode.MatchIndex f) lastIdx); lia.
Qed.

Lemma code_majority_even (n : Node) :
  Z.Even (Z.of_nat (size (otherNodes n))) ->
  Z.of_nat (size (otherNodes n)) `quot` 2 + 1 = cluster_majority n.
Proof.
  intros [k Hk]. unfold cluster_majority.
  rewrite Z.quot_div_nonneg by lia. rewrite Hk.
  replace (2 * k + 1) with (1 + k * 2) by lia.
  rewrite Z.div_add by lia.
  replace (2 * k) with (k * 2) by lia. rewrite Z.div_mul by lia. reflexivity.
Qed.

Lemma commitScan_result (fuel : nat) (majority lastIdx : Z) (n : Node) :
  Int64.min_int <= CommitIndex n ->
  lastIdx <= Int64.max_int ->
  lastIdx - CommitIndex n <= Z.of_nat fuel ->
  (commitScan fuel majority lastIdx n = n /\
   forall i, CommitIndex n < i <= lastIdx ->
             countMatching i (otherNodes n) < majority) \/
  (exists i,
     CommitIndex n < i <= lastIdx /\
     commitScan fuel majority lastIdx n = with_CommitIndex i n /\
     majority <= countMatching i (otherNodes n) /\
     forall k, i < k <= lastIdx -> countMatching k (otherNodes n) < majority).
Proof.
  intros Hmin. revert lastIdx.
  induction fuel as [| fuel IH]; intros lastIdx Hmax Hfuel; cbn [commitScan].
  - left. split; [reflexivity | lia].
  - destruct (Z.gtb_spec lastIdx (CommitIndex n)) as [Hgt | Hle].
    2:{ left. split; [reflexivity | lia]. }
    destruct (Z.geb_spec (countMatching lastIdx (otherNodes n)) majority)
      as [Hcount | Hcount].
    + right. exists lastIdx. repeat split; try lia.
    + assert (Hsub : Int64.sub lastIdx 1 = lastIdx - 1).
      { unfold Int64.sub. apply wrap_in_range. unfold Int64.in_range. lia. }
      rewrite Hsub.
      destruct (IH (lastIdx - 1)) as [[Hsame Hnone] | (i & Hi & Hscan & Hmaj & Habove)];
        try lia.
      * left. split; [exact Hsame |]. intros i Hi.
        destruct (Z.eq_dec i lastIdx) as [-> | Hne]; [lia | apply Hnone; lia].
      * right. exists i. repeat split; try lia; try assumption.
        intros k Hk.
        destruct (Z.eq_dec k lastIdx) as [-> | Hne]; [lia | apply Habove; lia].
Qed.

(** The application loop of the leader returns, with every committed record
    applied, on a state that keeps [-1 <= lastApplied] and
    [CommitIndex < len(log)]. *)
Lemma applyLoop_returns (fuel : nat) (n : Node) :
  -1 <= lastApplied n ->
  CommitIndex n < len (Log n) ->
  len (Log n) <= Int64.max_int ->
  CommitIndex n - lastApplied n <= Z.of_nat fuel ->
  exists n', applyLoop fuel n = Ok n' /\ CommitIndex n' <= lastApplied n'.
Proof.
  revert n. induction fuel as [| fuel IH]; intros n Hla Hci Hmax Hfuel; cbn.
  - exists n. split; [reflexivity | lia].
  - destruct (Z.ltb_spec (lastApplied n) (CommitIndex n)) as [Hlt | Hge].
    2:{ exists n. split; [reflexivity | lia]. }
    assert (Hadd : Int64.add (lastApplied n) 1 = lastApplied n + 1).
    { unfold Int64.add. apply wrap_in_range.
      unfold Int64.in_range, Int64.min_int, Int64.max_int in *. lia. }
    rewrite Hadd.
    destruct (index_in_range (Log n) (lastApplied n + 1)) as (rec & Hrec & _);
      [lia |].
    rewrite Hrec. cbn.
    destruct (applyToStore_frame rec (with_lastApplied (lastApplied n + 1) n))
      as (_ & _ & Hl & Hc & Ha).
    apply IH; rewrite ?Hl, ?Hc, ?Ha; cbn; lia.
Qed.

(** C1, as the specification has it, fails: the leader of term 2 commits the
    record of term 1 that both peers have matched. *)
Lemma commitRecords_commits_old_term :
  exists n',
    commitRecords Scenario.leaderOldRecord = Ok n' /\
    CommitIndex Scenario.leaderOldRecord = -1 /\ CommitIndex n' = 0 /\
    ~ (forall rec,
         Log Scenario.leaderOldRecord !! Z.to_nat (CommitIndex n') = Some rec ->
         LogRecord.Term rec = Term Scenario.leaderOldRecord).
Proof.
  eexists. split; [reflexivity |]. split; [reflexivity |]. split; [reflexivity |].
  intros H. specialize (H _ eq_refl). discriminate H.
Qed.

(** C1, amended: with an even number of peers, [commitRecords] moves
    [CommitIndex] only to the highest index above it, and inside the log,
    that a majority of the cluster (self counted) has matched; when there is
    no such index [CommitIndex] stays. The term of the record at that index
    is not looked at. The call returns when [-1 <= lastApplied] and
    [CommitIndex < len(log)]. [CommitIndex] is an [int64] and the length of
    the log is one a Go slice can have. *)
Theorem commitRecords_commit_index (n : Node) :
  Int64.min_int <= CommitIndex n ->
  len (Log n) <= Int64.max_int ->
  Z.Even (Z.of_nat (size (otherNodes n))) ->
  (forall n',
     commitRecords n = Ok n' ->
     (CommitIndex n' = CommitIndex n /\
      forall i, CommitIndex n < i < len (Log n) -> ~ on_majority i n) \/
     (CommitIndex n < CommitIndex n' < len (Log n) /\
      on_majority (CommitIndex n') n /\
      forall i, CommitIndex n' < i < len (Log n) -> ~ on_majority i n)) /\
  (-1 <= lastApplied n -> CommitIndex n < len (Log n) ->
   exists n', commitRecords n = Ok n').
Proof.
  intros Hmin Hmax Heven. unfold commitRecords, on_majority, matching.
  rewrite (code_majority_even n Heven).
  destruct (commitScan_result (Z.to_nat (len (Log n) - 1 - CommitIndex n))
              (cluster_majority n) (len (Log n) - 1) n)
    as [[Hscan Hnone] | (i & Hi & Hscan & Hmaj & Habove)]; try lia;
    rewrite Hscan; clear Hscan.
  - split.
    + intros n' Happly. apply applyLoop_frame in Happly as (Hc & _).
      left. split; [exact Hc |]. intros i Hi.
      specialize (Hnone i). rewrite countMatching_filter in Hnone. lia.
    + intros Hla Hci.
      destruct (applyLoop_returns (Z.to_nat (CommitIndex n - lastApplied n)) n)
        as (n' & Hn' & _); try lia.
      exists n'. exact Hn'.
  - rewrite countMatching_filter in Hmaj. split.
    + intros n' Happly. apply applyLoop_frame in Happly as (Hc & _).
      cbn in Hc. right. rewrite Hc. repeat split; try lia.
      intros k Hk. specialize (Habove k). rewrite countMatching_filter in Habove. lia.
    + intros Hla Hci. cbn.
      destruct (applyLoop_returns (Z.to_nat (i - lastApplied n)) (with_CommitIndex i n))
        as (n' & Hn' & _); cbn; try lia.
      exists n'. exact Hn'.
Qed.

Lemma commitRecords_commit_index_witness :
  (exists n', commitRecords Scenario.leaderOldRecord = Ok n') /\
  (forall n',
     commitRecords Scenario.leaderOldRecord = Ok n' ->
     CommitIndex n' = -1 \/ on_majority (CommitIndex n') Scenario.leaderOldRecord).
Proof.
  destruct (commitRecords_commit_index Scenario.leaderOldRecord) as [Honly Hreturns].
  - vm_compute. discriminate.
  - vm_compute. discriminate.
  - exists 1. reflexivity.
  - split.
    + apply Hreturns; vm_compute; [discriminate | reflexivity].
    + intros n' Hn'. destruct (Honly n' Hn') as [[Hsame _] | (_ & Hmaj & _)].
      * left. exact Hsame.
      * right. exact Hmaj.
Defined.

(** With an odd number of peers the code's threshold, [len(peers)/2 + 1], is
    one below the majority of the cluster: the leader of a cluster of two
    commits a record that only itself holds. *)
Lemma commitRecords_cluster_of_two :
  exists n',
    commitRecords Scenario.leaderOfTwo = Ok n' /\
    CommitIndex Scenario.leaderOfTwo = -1 /\ CommitIndex n' = 0 /\
    matching 0 Scenario.leaderOfTwo = 1 /\
    cluster_majority Scenario.leaderOfTwo = 2.
Proof. eexists. repeat split; reflexivity. Qed.

(** * Further properties of the node *)

(** ** What the application loops change *)

(** The follower's loop changes [CommitIndex] and the store, nothing else. *)
Lemma applyCommittedLoop_only (fuel : nat) (commitIdx : Z) (n n' : Node) :
  applyCommittedLoop fuel commitIdx n = Ok n' ->
  n' = with_Store (Store n') (with_CommitIndex (CommitIndex n') n).
Proof.
  revert n. induction fuel as [| fuel IH]; intros n; cbn.
  - intros [= <-]. destruct n; reflexivity.
  - destruct (CommitIndex n <? commitIdx); [| intros [= <-]; destruct n; reflexivity].
    destruct (index (Log n) (Int64.add (CommitIndex n) 1)) as [rec | p]; cbn;
      [| discriminate].
    intros H. apply IH in H. rewrite H. unfold applyToStore.
    destruct (LogRecord.Action rec); destruct n; reflexivity.
Qed.

Lemma applyCommittedLogs_only (commitIdx : Z) (n n' : Node) :
  applyCommittedLogs commitIdx n = Ok n' ->
  n' = with_Store (Store n') (with_CommitIndex (CommitIndex n') n).
Proof.
  unfold applyCommittedLogs. destruct (commitIdx >? CommitIndex n).
  - apply applyCommittedLoop_only.
  - intros [= <-]. destruct n; reflexivity.
Qed.

(** The leader's loop changes [lastApplied] and the store, nothing else. *)
Lemma applyLoop_only (fuel : nat) (n n' : Node) :
  applyLoop fuel n = Ok n' ->
  n' = with_Store (Store n') (with_lastApplied (lastApplied n') n).
Proof.
  revert n. induction fuel as [| fuel IH]; intros n; cbn.
  - intros [= <-]. destruct n; reflexivity.
  - destruct (lastApplied n <? CommitIndex n); [| intros [= <-]; destruct n; reflexivity].
    destruct (index (Log n) (Int64.add (lastApplied n) 1)) as [rec | p]; cbn;
      [| discriminate].
    intros H. apply IH in H. rewrite H. unfold applyToStore.
    destruct (LogRecord.Action rec); destruct n; reflexivity.
Qed.

(** ** The shape of an append *)

(** How [HandleAppend] comes to a reply: the request is invalid; or valid
    and not matched; or valid and matched, the log reconciled when there are
    entries, and commits applied. *)
Lemma HandleAppend_inv (req : AppendRequest.t) (n n' : Node)
    (reply : AppendReply.t) :
  HandleAppend req n = Ok (reply, n') ->
  exists leader,
    AppendRequest.Leader req = Some leader /\
    reply = AppendReply.mk (Term n') (AppendReply.Success reply) /\
    ((AppendReply.Success reply = false /\ n' = n /\
      validateAppend (AppendRequest.Term req) (RaftNode.Id leader) n
      = Ok (false, n)) \/
     exists n3,
       Term n <= AppendRequest.Term req /\
       validateAppend (AppendRequest.Term req) (RaftNode.Id leader) n
       = Ok (true, resetElectionTimer n) /\
       n' = resetElectionTimer
              (if AppendRequest.Term req >? Term n3
               then SetTerm (AppendRequest.Term req) (Some leader) n3
               else n3) /\
       ((AppendReply.Success reply = false /\ n3 = resetElectionTimer n /\
         checkPrevious (AppendRequest.PrevLogIndex req)
           (AppendRequest.PrevLogTerm req) n = Ok false) \/
        (AppendReply.Success reply = true /\
         checkPrevious (AppendRequest.PrevLogIndex req)
           (AppendRequest.PrevLogTerm req) n = Ok true /\
         exists n2,
           applyCommittedLogs (AppendRequest.LeaderCommit req) n2 = Ok n3 /\
           ((AppendRequest.Entries req = [] /\ n2 = resetElectionTimer n) \/
            (AppendRequest.Entries req <> [] /\
             exists logStore,
               reconcileLogs (Log n) req = Ok logStore /\
               n2 = snd (setLog logStore
                           (with_Log logStore (resetElectionTimer n)))))))).
Proof.
  unfold HandleAppend.
  destruct (AppendRequest.Leader req) as [leader |]; cbn; [| discriminate].
  destruct (validateAppend (AppendRequest.Term req) (RaftNode.Id leader) n)
    as [[valid n1] | p] eqn:Hvalid; cbn; [| discriminate].
  pose proof (validateAppend_inv _ _ _ _ _ Hvalid) as Hinv.
  assert (Hcheck : forall m, Log m = Log n ->
            checkPrevious (AppendRequest.PrevLogIndex req)
              (AppendRequest.PrevLogTerm req) m
            = checkPrevious (AppendRequest.PrevLogIndex req)
                (AppendRequest.PrevLogTerm req) n).
  { intros m Hm. unfold checkPrevious. rewrite Hm. reflexivity. }
  destruct Hinv as [(-> & Hle & ->) | (-> & ->)].
  2:{ destruct (checkPrevious (AppendRequest.PrevLogIndex req)
                  (AppendRequest.PrevLogTerm req) n) as [matched | p]; cbn;
        [| discriminate].
      intros [= <- <-]. exists leader. split; [reflexivity |].
      split; [reflexivity |]. left. auto. }
  rewrite (Hcheck (resetElectionTimer n) eq_refl).
  destruct (checkPrevious (AppendRequest.PrevLogIndex req)
              (AppendRequest.PrevLogTerm req) n) as [matched | p] eqn:Hmatch; cbn;
    [| discriminate].
  destruct matched; cbn.
  - destruct (AppendRequest.Entries req) as [| e es] eqn:Hentries; cbn.
    + change (len (@nil LogRecord.t) >? 0) with false. cbn.
      match goal with
      | |- context [applyCommittedLogs ?c ?m] =>
          change m with (resetElectionTimer n);
          destruct (applyCommittedLogs c (resetElectionTimer n))
            as [n3 | p] eqn:Happly; cbn; [| discriminate]
      end.
      intros [= <- <-]. exists leader. split; [reflexivity |].
      split; [reflexivity |]. right. exists n3. repeat split; try assumption.
      right. split; [reflexivity |]. split; [reflexivity |].
      exists (resetElectionTimer n). split; [exact Happly |]. left. auto.
    + assert (Hpos : (len (e :: es) >? 0) = true).
      { unfold len. cbn [length]. lia. }
      rewrite Hpos.
      destruct (reconcileLogs (Log n) req) as [logStore | p] eqn:Hrec; cbn;
        [| discriminate].
      match goal with
      | |- context [applyCommittedLogs ?c ?m] =>
          destruct (applyCommittedLogs c m) as [n3 | p] eqn:Happly; cbn;
          [| discriminate]
      end.
      intros [= <- <-]. exists leader. split; [reflexivity |].
      split; [reflexivity |]. right. exists n3. repeat split; try assumption.
      right. split; [reflexivity |]. split; [reflexivity |].
      eexists. split; [exact Happly |]. right. split; [discriminate |].
      exists logStore. split; reflexivity.
  - intros [= <- <-]. exists leader. split; [reflexivity |].
    split; [reflexivity |]. right. exists (resetElectionTimer n).
    repeat split; try assumption. left. auto.
Qed.

(** How [HandleVote] comes to a reply: a grant; the step of a leader asked
    in its own term; or a denial that changes nothing. *)
Lemma HandleVote_inv (req : VoteRequest.t) (n n' : Node) (reply : VoteReply.t) :
  HandleVote req n = Ok (reply, n') ->
  exists candidate,
    VoteRequest.Candidate req = Some candidate /\
    reply = VoteReply.mk (Term n') (VoteReply.VoteGranted reply)
              (Some (RaftNode n)) /\
    ((VoteReply.VoteGranted reply = true /\
      Term n < VoteRequest.Term req /\
      n' = SetTerm (VoteRequest.Term req) (Some candidate)
             (resetElectionTimer n)) \/
     (VoteReply.VoteGranted reply = false /\
      VoteRequest.Term req = Term n /\ State n = Leader /\
      n' = SetTerm (Int64.add (Term n) 1) (Some (RaftNode n)) n) \/
     (VoteReply.VoteGranted reply = false /\ n' = n)).
Proof.
  unfold HandleVote.
  destruct (VoteRequest.Candidate req) as [candidate |]; cbn; [| discriminate].
  intros H. exists candidate. split; [reflexivity |]. revert H.
  destruct (Z.ltb_spec (VoteRequest.Term req) (Term n)); cbn.
  { intros [= <- <-]. split; [reflexivity |]. right. right. auto. }
  destruct (Z.eqb_spec (VoteRequest.Term req) (Term n)); cbn.
  { destruct (State n) eqn:Hstate; intros [= <- <-]; (split; [reflexivity |]).
    - right. left. auto.
    - right. right. auto. }
  destruct (CheckForeignNode n (RaftNode.Id candidate) (otherNodes n)); cbn.
  2:{ intros [= <- <-]. split; [reflexivity |]. right. right. auto. }
  destruct (candidateLogUpToDate (VoteRequest.LastLogIndex req)
              (VoteRequest.LastLogTerm req) n) as [[|] | p]; cbn;
    [| | discriminate].
  - destruct (AllowVote n); cbn; intros [= <- <-]; (split; [reflexivity |]).
    + left. repeat split. lia.
    + right. right. auto.
  - intros [= <- <-]. split; [reflexivity |]. right. right. auto.
Qed.

(** ** Replies *)

(** Whenever a handler returns, its reply carries the term the node has
    after the call; the reply to a vote request names the node itself. *)
Theorem replies_carry_current_term (n : Node) :
  (forall req,
     match HandleVote req n with
     | Ok (reply, n') =>
         VoteReply.Term reply = Term n' /\
         VoteReply.Node reply = Some (RaftNode n') /\
         RaftNode n' = RaftNode n
     | Panic _ => True
     end) /\
  (forall req,
     match HandleAppend req n with
     | Ok (reply, n') => AppendReply.Term reply = Term n' /\ RaftNode n' = RaftNode n
     | Panic _ => True
     end).
Proof.
  split; intros req.
  - destruct (HandleVote req n) as [[reply n'] | p] eqn:H; [| exact I].
    apply HandleVote_inv in H as (candidate & _ & Hreply & Hcases).
    assert (Hself : RaftNode n' = RaftNode n).
    { destruct Hcases as [(_ & _ & ->) | [(_ & _ & _ & ->) | (_ & ->)]];
        reflexivity. }
    rewrite Hreply, Hself. repeat split.
  - destruct (HandleAppend req n) as [[reply n'] | p] eqn:H; [| exact I].
    apply HandleAppend_inv in H as (leader & _ & Hreply & Hcases).
    split; [rewrite Hreply; reflexivity |].
    destruct Hcases as [(_ & -> & _) | (n3 & _ & _ & -> & Hmatched)];
      [reflexivity |].
    assert (Hn3 : RaftNode n3 = RaftNode n).
    { destruct Hmatched as [(_ & -> & _) | (_ & _ & n2 & Happly & Hn2)];
        [reflexivity |].
      rewrite (applyCommittedLogs_only _ _ _ Happly).
      destruct Hn2 as [(_ & ->) | (_ & logStore & _ & ->)]; reflexivity. }
    destruct (AppendRequest.Term req >? Term n3); cbn; exact Hn3.
Qed.

(** ** Votes: what a request may change *)

(** [HandleVote] writes the term, the vote, the role and the reset signal
    only: whenever it returns, the log (in memory and on disk), the commit
    and applied indices, the store, the peers and [AllowVote] are as they
    were. *)
Theorem HandleVote_leaves_log_and_store (req : VoteRequest.t) (n : Node) :
  match HandleVote req n with
  | Ok (_, n') =>
      Log n' = Log n /\ LogFile (disk n') = LogFile (disk n) /\
      CommitIndex n' = CommitIndex n /\ lastApplied n' = lastApplied n /\
      Store n' = Store n /\ otherNodes n' = otherNodes n /\
      AllowVote n' = AllowVote n
  | Panic _ => True
  end.
Proof.
  destruct (HandleVote req n) as [[reply n'] | p] eqn:H; [| exact I].
  apply HandleVote_inv in H as (candidate & _ & _ & Hcases).
  destruct Hcases as [(_ & _ & ->) | [(_ & _ & _ & ->) | (_ & ->)]];
    repeat split.
Qed.

(** A leader asked for a vote in its own term denies it, moves to the next
    term with its vote for itself, on disk too, and stays Leader. *)
Theorem HandleVote_leader_steps_term (req : VoteRequest.t) (n : Node) :
  State n = Leader ->
  is_Some (VoteRequest.Candidate req) ->
  VoteRequest.Term req = Term n ->
  Int64.min_int <= Term n < Int64.max_int ->
  exists n',
    HandleVote req n
    = Ok (VoteReply.mk (Term n + 1) false (Some (RaftNode n)), n') /\
    State n' = Leader /\ Term n' = Term n + 1 /\
    votedFor n' = Some (RaftNode n) /\
    ReadTerm (disk n') = TermRecord.mk (Term n + 1) (Some (RaftNode n)).
Proof.
  intros Hstate [candidate Hcand] Hterm Hrange. unfold HandleVote.
  rewrite Hcand, Hterm, Hstate. cbn.
  destruct (Z.ltb_spec (Term n) (Term n)); [lia |]. rewrite Z.eqb_refl. cbn.
  assert (Int64.add (Term n) 1 = Term n + 1) as ->.
  { unfold Int64.add. apply wrap_in_range.
    unfold Int64.in_range, Int64.min_int, Int64.max_int in *. lia. }
  eexists. split; [reflexivity |]. cbn. rewrite Hstate. repeat split.
Qed.

Lemma HandleVote_leader_steps_term_witness :
  exists n',
    HandleVote (VoteRequest.mk 2 (Some Scenario.P2) 0 1) Scenario.leaderOldRecord
    = Ok (VoteReply.mk 3 false (Some Scenario.self), n') /\
    State n' = Leader /\ Term n' = 3.
Proof.
  destruct (HandleVote_leader_steps_term
              (VoteRequest.mk 2 (Some Scenario.P2) 0 1) Scenario.leaderOldRecord)
    as (n' & H & Hs & Ht & _).
  - reflexivity.
  - exists Scenario.P2. reflexivity.
  - reflexivity.
  - split; vm_compute; [discriminate | reflexivity].
  - exists n'. repeat split; assumption.
Defined.

(** A vote request of a higher term from a known peer whose [lastLogIndex] is
    negative makes [HandleVote] panic, unless that index is above the node's
    [CommitIndex] or both are -1: the debug message of
    [candidateLogUpToDate], or its comparison of terms, reads the log at the
    negative index. So does the request of a candidate with an empty log to a
    node that has committed a record. *)
Theorem HandleVote_negative_index_panics (req : VoteRequest.t) (n : Node)
    (candidate : RaftNode.t) :
  VoteRequest.Candidate req = Some candidate ->
  Term n < VoteRequest.Term req ->
  CheckForeignNode n (RaftNode.Id candidate) (otherNodes n) = true ->
  VoteRequest.LastLogIndex req < 0 ->
  VoteRequest.LastLogIndex req <= CommitIndex n ->
  ~ (VoteRequest.LastLogIndex req = -1 /\ CommitIndex n = -1) ->
  HandleVote req n = Panic IndexOutOfRange.
Proof.
  intros Hcand Hterm Hknown Hneg Hle Hboth. unfold HandleVote.
  rewrite Hcand. cbn.
  destruct (Z.ltb_spec (VoteRequest.Term req) (Term n)); [lia |].
  destruct (Z.eqb_spec (VoteRequest.Term req) (Term n)); [lia |].
  rewrite Hknown. cbn. unfold candidateLogUpToDate.
  destruct (Z.gtb_spec (VoteRequest.LastLogIndex req) (CommitIndex n)); [lia |].
  assert (((VoteRequest.LastLogIndex req =? -1) && (CommitIndex n =? -1)) = false)
    as -> by lia.
  cbn. rewrite (index_out_of_range (Log n) (VoteRequest.LastLogIndex req))
    by (left; lia).
  pose proof (len_nonneg (Log n)).
  destruct (Z.eqb_spec (VoteRequest.LastLogIndex req) (CommitIndex n)); cbn;
    [reflexivity |].
  destruct (Z.ltb_spec (VoteRequest.LastLogIndex req) (len (Log n))); [| lia].
  reflexivity.
Qed.

Lemma HandleVote_negative_index_panics_witness :
  HandleVote Scenario.emptyLogVoteRequest Scenario.S4_after
  = Panic IndexOutOfRange.
Proof.
  apply (HandleVote_negative_index_panics Scenario.emptyLogVoteRequest
           Scenario.S4_after Scenario.P2).
  - reflexivity.
  - reflexivity.
  - reflexivity.
  - reflexivity.
  - vm_compute. discriminate.
  - intros [_ H]. discriminate H.
Defined.

(** ** Appends: what a request may change *)

(** An append of a term above the node's, when the handler returns, leaves
    the node a Follower of that term with its vote for the sender, on disk
    too, and two more signals on [Reset]: a leader that gets one steps
    down. *)
Theorem HandleAppend_higher_term (req : AppendRequest.t) (n : Node)
    (leader : RaftNode.t) :
  AppendRequest.Leader req = Some leader ->
  Term n < AppendRequest.Term req ->
  match HandleAppend req n with
  | Ok (reply, n') =>
      AppendReply.Term reply = AppendRequest.Term req /\
      Term n' = AppendRequest.Term req /\ votedFor n' = Some leader /\
      State n' = Follower /\ Reset n' = S (S (Reset n)) /\
      ReadTerm (disk n') = TermRecord.mk (AppendRequest.Term req) (Some leader)
  | Panic _ => True
  end.
Proof.
  intros Hleader Hterm.
  destruct (HandleAppend req n) as [[reply n'] | p] eqn:H; [| exact I].
  apply HandleAppend_inv in H as (leader' & Hleader' & Hreply & Hcases).
  rewrite Hleader in Hleader'. injection Hleader' as <-.
  destruct Hcases as [(_ & _ & Hinvalid) | (n3 & _ & _ & Hn' & Hmatched)].
  { unfold validateAppend in Hinvalid.
    destruct (Z.ltb_spec (AppendRequest.Term req) (Term n)); [lia |].
    destruct (Z.eqb_spec (AppendRequest.Term req) (Term n)); [lia |].
    discriminate Hinvalid. }
  assert (Hn3 : Term n3 = Term n /\ Reset n3 = S (Reset n)).
  { destruct Hmatched as [(_ & -> & _) | (_ & _ & n2 & Happly & Hn2)];
      [split; reflexivity |].
    rewrite (applyCommittedLogs_only _ _ _ Happly).
    destruct Hn2 as [(_ & ->) | (_ & logStore & _ & ->)]; split; reflexivity. }
  destruct Hn3 as [Ht Hr].
  destruct (Z.gtb_spec (AppendRequest.Term req) (Term n3)); [| lia].
  rewrite Hreply. subst n'. cbn. rewrite Hr. repeat split.
Qed.

Lemma HandleAppend_higher_term_witness :
  match HandleAppend Scenario.higherTermHeartbeat Scenario.leaderOldRecord with
  | Ok (reply, n') =>
      AppendReply.Term reply = 9 /\
      Term n' = 9 /\ votedFor n' = Some Scenario.P2 /\
      State n' = Follower /\ Reset n' = 2%nat /\
      ReadTerm (disk n') = TermRecord.mk 9 (Some Scenario.P2)
  | Panic _ => True
  end.
Proof.
  apply (HandleAppend_higher_term Scenario.higherTermHeartbeat
           Scenario.leaderOldRecord Scenario.P2); reflexivity.
Defined.

(** An append that is answered [success=false] leaves the log (in memory
    and on disk), the commit and applied indices and the store as they were;
    when its term is below the node's, the whole node. *)
Theorem HandleAppend_rejected (req : AppendRequest.t) (n n' : Node)
    (reply : AppendReply.t) :
  HandleAppend req n = Ok (reply, n') ->
  AppendReply.Success reply = false ->
  Log n' = Log n /\ LogFile (disk n') = LogFile (disk n) /\
  CommitIndex n' = CommitIndex n /\ lastApplied n' = lastApplied n /\
  Store n' = Store n /\
  (AppendRequest.Term req < Term n -> n' = n /\ AppendReply.Term reply = Term n).
Proof.
  intros H Hfalse.
  apply HandleAppend_inv in H as (leader & _ & Hreply & Hcases).
  destruct Hcases as [(_ & -> & _) | (n3 & Hle & _ & -> & Hmatched)].
  - repeat split. rewrite Hreply. reflexivity.
  - destruct Hmatched as [(_ & -> & _) | (Htrue & _)]; [| congruence].
    destruct (AppendRequest.Term req >? Term (resetElectionTimer n)); cbn;
      repeat split; cbn in *; lia.
Qed.

Lemma HandleAppend_rejected_witness :
  exists reply n',
    HandleAppend (AppendRequest.mk 1 (Some Scenario.L) (-1) 0 (-1) [])
      Scenario.S3_after = Ok (reply, n') /\
    n' = Scenario.S3_after /\ AppendReply.Term reply = 7.
Proof.
  assert (H : HandleAppend (AppendRequest.mk 1 (Some Scenario.L) (-1) 0 (-1) [])
                Scenario.S3_after
              = Ok (AppendReply.mk 7 false, Scenario.S3_after)) by reflexivity.
  eexists _, _. split; [exact H |].
  destruct (HandleAppend_rejected _ _ _ _ H eq_refl) as (_ & _ & _ & _ & _ & Hstale).
  apply Hstale. reflexivity.
Defined.

(** ** Reconciliation: the log an append leaves *)

(** Before the mismatch the scan finds, or all along when it finds none, the
    local entries have the terms of the incoming ones. *)
Lemma mismatch_offset_terms (local incoming : list LogRecord.t) (j : nat)
    (k : nat) (rec : LogRecord.t) :
  local !! k = Some rec ->
  match mismatch_offset local incoming j with
  | Some m => (j + k < m)%nat
  | None => True
  end ->
  exists new, incoming !! k = Some new /\ LogRecord.Term rec = LogRecord.Term new.
Proof.
  revert incoming j k. induction local as [| rec0 local IH]; intros incoming j k; cbn.
  - intros [=].
  - destruct incoming as [| new0 incoming]; cbn; [lia |].
    destruct (Z.eqb_spec (LogRecord.Term rec0) (LogRecord.Term new0)) as [Heq | Hne];
      [| lia].
    destruct k as [| k]; cbn.
    + intros [= <-] _. exists new0. split; [reflexivity | exact Heq].
    + intros Hrec Hm. apply (IH incoming (S j) k Hrec).
      destruct (mismatch_offset local incoming (S j)); [lia | exact I].
Qed.

(** The scan finds no mismatch in a local log that is no longer than the
    incoming entries and has their terms. *)
Lemma mismatch_offset_same_terms (local incoming : list LogRecord.t) (j : nat) :
  (length local <= length incoming)%nat ->
  (forall k rec new,
     local !! k = Some rec -> incoming !! k = Some new ->
     LogRecord.Term rec = LogRecord.Term new) ->
  mismatch_offset local incoming j = None.
Proof.
  revert incoming j. induction local as [| rec local IH]; intros incoming j; cbn.
  - reflexivity.
  - destruct incoming as [| new incoming]; cbn; [lia |].
    intros Hlen Hterms.
    rewrite (Hterms 0%nat rec new eq_refl eq_refl), Z.eqb_refl.
    apply IH; [lia |]. intros k rec' new' Hrec Hnew.
    apply (Hterms (S k) rec' new' Hrec Hnew).
Qed.

(** The log [reconcileLogs] returns, entry by entry: up to [prevLogIndex]
    the entries of the local log; after it, as many entries as the request
    has, each with the term of the incoming entry at its place, and each
    either that incoming entry or the local entry it found there. *)
Lemma reconcileLogs_shape (logStore : list LogRecord.t) (body : AppendRequest.t) :
  is_Some (AppendRequest.Leader body) ->
  -1 <= AppendRequest.PrevLogIndex body < len logStore ->
  len logStore <= Int64.max_int ->
  AppendRequest.Entries body <> [] ->
  let start := Z.to_nat (AppendRequest.PrevLogIndex body + 1) in
  exists logStore',
    reconcileLogs logStore body = Ok logStore' /\
    length logStore' = (start + length (AppendRequest.Entries body))%nat /\
    (forall i, (i < start)%nat -> logStore' !! i = logStore !! i) /\
    (forall j new,
       AppendRequest.Entries body !! j = Some new ->
       exists rec,
         logStore' !! (start + j)%nat = Some rec /\
         LogRecord.Term rec = LogRecord.Term new /\
         (rec = new \/ logStore !! (start + j)%nat = Some rec)).
Proof.
  intros Hleader Hprev Hmax Hne start.
  rewrite reconcileLogs_result by assumption. fold start.
  set (entries := AppendRequest.Entries body) in *.
  assert (Hlen : (0 < length entries)%nat).
  { destruct entries; [congruence | cbn; lia]. }
  assert (Hstart : (start <= length logStore)%nat)
    by (unfold len in *; subst start; lia).
  eexists. split; [reflexivity |].
  pose proof (mismatch_offset_terms (drop start logStore) entries 0) as Hterms.
  destruct (mismatch_offset (drop start logStore) entries 0) as [m |] eqn:Hm.
  - apply mismatch_offset_Some in Hm as [Hm1 Hm2].
    rewrite length_drop in Hm1. cbn in Hm2.
    assert (Hlocal : forall j new, (j < m)%nat -> (j < length entries)%nat ->
              entries !! j = Some new ->
              exists rec, logStore !! (start + j)%nat = Some rec /\
                          LogRecord.Term rec = LogRecord.Term new).
    { intros j new Hj Hj' Hnew.
      destruct (lookup_lt_is_Some_2 logStore (start + j)) as [rec Hrec]; [lia |].
      exists rec. split; [exact Hrec |].
      destruct (Hterms j rec) as (new' & Hnew' & Heq).
      - rewrite lookup_drop. exact Hrec.
      - cbn. exact Hj.
      - rewrite Hnew in Hnew'. injection Hnew' as <-. exact Heq. }
    destruct (Nat.leb_spec (length entries) m) as [Hextra | Hdiffer].
    + assert (m = length entries) as -> by lia.
      split; [| split].
      * rewrite length_app, length_take, length_drop. lia.
      * intros i Hi. rewrite lookup_app_l by (rewrite length_take; lia).
        apply lookup_take_lt. lia.
      * intros j new Hnew. pose proof (lookup_lt_Some _ _ _ Hnew) as Hj.
        destruct (Nat.lt_ge_cases j (length entries - 1)) as [Hlt | Hge].
        -- destruct (Hlocal j new) as (rec & Hrec & Heq); [lia | lia | exact Hnew |].
           exists rec. split; [| split; [exact Heq | right; exact Hrec]].
           rewrite lookup_app_l by (rewrite length_take; lia).
           rewrite lookup_take_lt by lia. exact Hrec.
        -- exists new. split; [| split; [reflexivity | left; reflexivity]].
           rewrite lookup_app_r by (rewrite length_take; lia).
           rewrite length_take, lookup_drop. rewrite <- Hnew. f_equal. lia.
    + split; [| split].
      * rewrite length_app, length_take, length_drop. lia.
      * intros i Hi. rewrite lookup_app_l by (rewrite length_take; lia).
        apply lookup_take_lt. lia.
      * intros j new Hnew. pose proof (lookup_lt_Some _ _ _ Hnew) as Hj.
        destruct (Nat.lt_ge_cases j m) as [Hlt | Hge].
        -- destruct (Hlocal j new) as (rec & Hrec & Heq); [lia | lia | exact Hnew |].
           exists rec. split; [| split; [exact Heq | right; exact Hrec]].
           rewrite lookup_app_l by (rewrite length_take; lia).
           rewrite lookup_take_lt by lia. exact Hrec.
        -- exists new. split; [| split; [reflexivity | left; reflexivity]].
           rewrite lookup_app_r by (rewrite length_take; lia).
           rewrite length_take, lookup_drop. rewrite <- Hnew. f_equal. lia.
  - apply mismatch_offset_None in Hm. rewrite length_drop in Hm.
    split; [| split].
    + rewrite length_app, length_drop. lia.
    + intros i Hi. apply lookup_app_l. lia.
    + intros j new Hnew. pose proof (lookup_lt_Some _ _ _ Hnew) as Hj.
      destruct (Nat.lt_ge_cases (start + j) (length logStore)) as [Hlt | Hge].
      * destruct (lookup_lt_is_Some_2 logStore (start + j)) as [rec Hrec]; [lia |].
        exists rec. rewrite lookup_app_l by lia.
        split; [exact Hrec |]. split; [| right; exact Hrec].
        destruct (Hterms j rec) as (new' & Hnew' & Heq).
        -- rewrite lookup_drop. exact Hrec.
        -- exact I.
        -- rewrite Hnew in Hnew'. injection Hnew' as <-. exact Heq.
      * exists new. split; [| split; [reflexivity | left; reflexivity]].
        rewrite lookup_app_r by lia. rewrite lookup_drop.
        rewrite <- Hnew. f_equal. lia.
Qed.

(** ** Applying commits, in order *)

Lemma entriesBetween_nil (log : list LogRecord.t) (lo hi : Z) :
  hi <= lo -> entriesBetween log lo hi = [].
Proof.
  intros H. unfold entriesBetween. replace (Z.to_nat (hi - lo)) with 0%nat by lia.
  reflexivity.
Qed.

Lemma entriesBetween_cons (log : list LogRecord.t) (lo hi : Z) (rec : LogRecord.t) :
  -1 <= lo < hi ->
  log !! Z.to_nat (lo + 1) = Some rec ->
  entriesBetween log lo hi = rec :: entriesBetween log (lo + 1) hi.
Proof.
  intros Hlo Hrec. unfold entriesBetween.
  replace (Z.to_nat (hi - lo)) with (S (Z.to_nat (hi - (lo + 1)))) by lia.
  rewrite (drop_S _ _ _ Hrec). cbn.
  replace (Z.to_nat (lo + 1 + 1)) with (S (Z.to_nat (lo + 1))) by lia.
  reflexivity.
Qed.

Lemma applyToStore_Store (rec : LogRecord.t) (n : Node) :
  Store (applyToStore rec n) = applyAll [rec] (Store n).
Proof. unfold applyToStore, applyAll. cbn. destruct (LogRecord.Action rec); reflexivity. Qed.

Lemma applyAll_cons (rec : LogRecord.t) (records : list LogRecord.t)
    (store : Database.t) :
  applyAll (rec :: records) store = applyAll records (applyAll [rec] store).
Proof. reflexivity. Qed.

(** The follower's loop, when it returns: it has read the log only inside
    its bounds, [CommitIndex] has reached [commitIdx], and the store has
    taken the records in between, in the order of the log. *)
Lemma applyCommittedLoop_result (fuel : nat) (commitIdx : Z) (n n' : Node) :
  applyCommittedLoop fuel commitIdx n = Ok n' ->
  Int64.min_int <= CommitIndex n ->
  commitIdx <= Int64.max_int ->
  commitIdx - CommitIndex n <= Z.of_nat fuel ->
  CommitIndex n' = Z.max (CommitIndex n) commitIdx /\
  Store n'
  = applyAll (entriesBetween (Log n) (CommitIndex n) (CommitIndex n')) (Store n) /\
  (CommitIndex n < commitIdx -> -1 <= CommitIndex n /\ commitIdx < len (Log n)).
Proof.
  revert n. induction fuel as [| fuel IH]; intros n; cbn [applyCommittedLoop].
  - intros [= <-] Hmin Hmax Hfuel.
    rewrite entriesBetween_nil by lia. split; [lia |]. split; [reflexivity | lia].
  - intros H Hmin Hmax Hfuel.
    destruct (Z.ltb_spec (CommitIndex n) commitIdx) as [Hlt | Hge].
    2:{ injection H as <-. rewrite entriesBetween_nil by lia.
        split; [lia |]. split; [reflexivity | lia]. }
    assert (Hadd : Int64.add (CommitIndex n) 1 = CommitIndex n + 1).
    { unfold Int64.add. apply wrap_in_range. unfold Int64.in_range. lia. }
    cbn in H. rewrite Hadd in H.
    destruct (index (Log n) (CommitIndex n + 1)) as [rec | p] eqn:Hrec; cbn in H;
      [| discriminate].
    apply index_Ok in Hrec as [H0 Hrec].
    pose proof (lookup_lt_Some _ _ _ Hrec) as Hlen.
    destruct (applyToStore_frame rec (with_CommitIndex (CommitIndex n + 1) n))
      as (_ & _ & Hl & Hc & _). cbn in Hl, Hc.
    apply IH in H as (Hci & Hstore & Hin); rewrite ?Hl, ?Hc in *; try lia.
    split; [lia |]. split.
    + rewrite Hstore, applyToStore_Store. cbn [Store with_CommitIndex].
      rewrite (entriesBetween_cons (Log n) (CommitIndex n) (CommitIndex n') rec)
        by (try exact Hrec; lia).
      rewrite applyAll_cons. reflexivity.
    + intros _. split; [lia |].
      destruct (Z.eq_dec (CommitIndex n + 1) commitIdx) as [<- | Hne].
      * unfold len. lia.
      * apply Hin. lia.
Qed.

(** [applyCommittedLogs], when it returns, has not lowered [CommitIndex];
    the store has taken the records of the log from the old [CommitIndex] to
    the new one, in order; nothing else of the node has changed; and a
    [commitIdx] inside the log, above the old [CommitIndex], is the new one.
    It returns whenever [commitIdx] is below the length of the log and
    [CommitIndex] at least -1. [CommitIndex] is an [int64] and the length
    of the log is one a Go slice can have. *)
Theorem applyCommittedLogs_applies_in_order (commitIdx : Z) (n : Node) :
  Int64.min_int <= CommitIndex n ->
  len (Log n) <= Int64.max_int ->
  (forall n',
     applyCommittedLogs commitIdx n = Ok n' ->
     CommitIndex n <= CommitIndex n' /\
     Store n'
     = applyAll (entriesBetween (Log n) (CommitIndex n) (CommitIndex n'))
         (Store n) /\
     n' = with_Store (Store n') (with_CommitIndex (CommitIndex n') n) /\
     (CommitIndex n < commitIdx < len (Log n) -> CommitIndex n' = commitIdx)) /\
  (-1 <= CommitIndex n -> commitIdx < len (Log n) ->
   exists n', applyCommittedLogs commitIdx n = Ok n').
Proof.
  intros Hmin Hmax. split.
  - intros n' H. pose proof (applyCommittedLogs_only _ _ _ H) as Honly.
    unfold applyCommittedLogs in H.
    destruct (Z.gtb_spec commitIdx (CommitIndex n)) as [Hgt | Hle].
    2:{ injection H as <-. rewrite entriesBetween_nil by lia.
        repeat split; try lia. destruct n; reflexivity. }
    apply applyCommittedLoop_result in H as (Hci & Hstore & Hin);
      [| lia | destruct (Z.gtb_spec commitIdx (len (Log n))); lia | lia].
    split; [lia |]. split; [exact Hstore |]. split; [exact Honly |].
    intros Hc. destruct (Z.gtb_spec commitIdx (len (Log n))); lia.
  - intros Hci Hc.
    destruct (applyCommittedLogs_in_range commitIdx n) as (n' & Hn' & _); try lia.
    + pose proof (len_nonneg (Log n)). unfold applyCommittedLogs in Hn'.
      exists n'. exact Hn'.
Qed.

Lemma applyCommittedLogs_applies_in_order_witness :
  exists n',
    applyCommittedLogs 0 Scenario.S3_after = Ok n' /\
    CommitIndex n' = 0 /\
    Store n' = applyAll [Scenario.kv] ∅.
Proof.
  destruct (applyCommittedLogs_applies_in_order 0 Scenario.S3_after)
    as [Hresult Hreturns].
  - vm_compute. discriminate.
  - vm_compute. discriminate.
  - destruct Hreturns as [n' Hn']; [vm_compute; discriminate | reflexivity |].
    exists n'. split; [exact Hn' |].
    destruct (Hresult n' Hn') as (_ & Hstore & _ & Hci).
    assert (Hc : CommitIndex n' = 0) by (apply Hci; split; reflexivity).
    split; [exact Hc |]. rewrite Hstore, Hc. reflexivity.
Defined.

(** ** The log after an accepted append *)

(** A log-match check that answers true for a [prevLogIndex] of -1 or more
    has found that index inside the log. *)
Lemma checkPrevious_true_in_range (prevIndex prevTerm : Z) (n : Node) :
  checkPrevious prevIndex prevTerm n = Ok true ->
  -1 <= prevIndex -> prevIndex < len (Log n).
Proof.
  intros H Hprev. pose proof (len_nonneg (Log n)).
  destruct (Z.lt_ge_cases prevIndex (len (Log n))) as [Hlt | Hge]; [exact Hlt |].
  destruct (checkPrevious_cases prevIndex prevTerm n) as (_ & _ & Hpanic).
  rewrite Hpanic in H by lia. discriminate.
Qed.

(** An append with entries that is answered [success=true] leaves a log, the
    same on disk, that keeps the entries up to [prevLogIndex] and has, after
    it, exactly as many entries as the request, each with the term of the
    incoming entry at its place: it is that incoming entry, or the local
    entry that was there. The length of the log before is one a Go slice can
    have. *)
Theorem HandleAppend_takes_entries (req : AppendRequest.t) (n n' : Node)
    (reply : AppendReply.t) :
  HandleAppend req n = Ok (reply, n') ->
  AppendReply.Success reply = true ->
  AppendRequest.Entries req <> [] ->
  -1 <= AppendRequest.PrevLogIndex req ->
  len (Log n) <= Int64.max_int ->
  let start := Z.to_nat (AppendRequest.PrevLogIndex req + 1) in
  length (Log n') = (start + length (AppendRequest.Entries req))%nat /\
  ReadLogs (disk n') = Log n' /\
  (forall i, (i < start)%nat -> Log n' !! i = Log n !! i) /\
  (forall j new,
     AppendRequest.Entries req !! j = Some new ->
     exists rec,
       Log n' !! (start + j)%nat = Some rec /\
       LogRecord.Term rec = LogRecord.Term new /\
       (rec = new \/ Log n !! (start + j)%nat = Some rec)).
Proof.
  intros H Htrue Hne Hprev Hmax start.
  apply HandleAppend_inv in H as (leader & Hleader & _ & Hcases).
  destruct Hcases as [(Hfalse & _) | (n3 & _ & _ & -> & Hmatched)]; [congruence |].
  destruct Hmatched as [(Hfalse & _) | (_ & Hmatch & n2 & Happly & Hn2)];
    [congruence |].
  destruct Hn2 as [(Hnil & _) | (_ & logStore & Hrec & ->)]; [congruence |].
  apply checkPrevious_true_in_range in Hmatch; [| exact Hprev].
  destruct (reconcileLogs_shape (Log n) req) as (logStore' & Hrec' & Hshape);
    try assumption; [rewrite Hleader; eauto | lia |].
  rewrite Hrec in Hrec'. injection Hrec' as <-.
  rewrite (applyCommittedLogs_only _ _ _ Happly).
  assert (Hlog : forall m : Node,
            Log (resetElectionTimer
                   (if AppendRequest.Term req >? Term m
                    then SetTerm (AppendRequest.Term req) (Some leader) m
                    else m)) = Log m /\
            ReadLogs (disk (resetElectionTimer
                   (if AppendRequest.Term req >? Term m
                    then SetTerm (AppendRequest.Term req) (Some leader) m
                    else m))) = ReadLogs (disk m)).
  { intros m. destruct (AppendRequest.Term req >? Term m); split; reflexivity. }
  destruct (Hlog (with_Store (Store n3) (with_CommitIndex (CommitIndex n3)
              (snd (setLog logStore (with_Log logStore (resetElectionTimer n))))))) as [-> ->].
  cbn. exact (conj (proj1 Hshape) (conj eq_refl (proj2 Hshape))).
Qed.

Lemma HandleAppend_takes_entries_witness :
  exists reply n',
    HandleAppend Scenario.S6_request Scenario.S6_before = Ok (reply, n') /\
    length (Log n') = 2%nat /\ ReadLogs (disk n') = Log n'.
Proof.
  assert (H : exists reply n',
            HandleAppend Scenario.S6_request Scenario.S6_before = Ok (reply, n') /\
            AppendReply.Success reply = true).
  { eexists _, _. split; reflexivity. }
  destruct H as (reply & n' & H & Htrue). exists reply, n'. split; [exact H |].
  destruct (HandleAppend_takes_entries _ _ _ _ H Htrue) as (Hlen & Hdisk & _).
  - discriminate.
  - vm_compute. discriminate.
  - vm_compute. discriminate.
  - split; [exact Hlen | exact Hdisk].
Defined.

(** An accepted append right after the last entry of the log, a heartbeat
    included, leaves the log followed by the entries of the request. *)
Theorem HandleAppend_extends_log (req : AppendRequest.t) (n n' : Node)
    (reply : AppendReply.t) :
  HandleAppend req n = Ok (reply, n') ->
  AppendReply.Success reply = true ->
  AppendRequest.PrevLogIndex req = len (Log n) - 1 ->
  len (Log n) <= Int64.max_int ->
  Log n' = Log n ++ AppendRequest.Entries req.
Proof.
  intros H Htrue Hprev Hmax. pose proof (len_nonneg (Log n)) as Hlen.
  apply HandleAppend_inv in H as (leader & Hleader & _ & Hcases).
  destruct Hcases as [(Hfalse & _) | (n3 & _ & _ & -> & Hmatched)]; [congruence |].
  destruct Hmatched as [(Hfalse & _) | (_ & Hmatch & n2 & Happly & Hn2)];
    [congruence |].
  assert (Hlog : forall m : Node,
            Log (resetElectionTimer
                   (if AppendRequest.Term req >? Term m
                    then SetTerm (AppendRequest.Term req) (Some leader) m
                    else m)) = Log m).
  { intros m. destruct (AppendRequest.Term req >? Term m); reflexivity. }
  rewrite Hlog, (applyCommittedLogs_only _ _ _ Happly). cbn.
  destruct Hn2 as [(-> & ->) | (Hne & logStore & Hrec & ->)].
  - cbn. rewrite app_nil_r. reflexivity.
  - rewrite reconcileLogs_result in Hrec;
      [| rewrite Hleader; eauto | lia | exact Hmax | exact Hne].
    rewrite drop_ge in Hrec by (unfold len in *; lia). cbn in Hrec.
    injection Hrec as <-. cbn.
    replace (length (Log n) - Z.to_nat (AppendRequest.PrevLogIndex req + 1))%nat
      with 0%nat by (unfold len in *; lia).
    reflexivity.
Qed.

Lemma HandleAppend_extends_log_witness :
  exists reply n',
    HandleAppend Scenario.S3_request Scenario.S3_before = Ok (reply, n') /\
    Log n' = [] ++ [Scenario.kv].
Proof.
  assert (H : HandleAppend Scenario.S3_request Scenario.S3_before
              = Ok (AppendReply.mk 7 true, Scenario.S3_after)) by reflexivity.
  eexists _, _. split; [exact H |].
  apply (HandleAppend_extends_log _ _ _ _ H).
  - reflexivity.
  - reflexivity.
  - vm_compute. discriminate.
Defined.

(** The way of a valid and matched append through [HandleAppend], forward. *)
Lemma HandleAppend_accepted (req : AppendRequest.t) (n n2 n3 : Node)
    (leader : RaftNode.t) :
  AppendRequest.Leader req = Some leader ->
  validateAppend (AppendRequest.Term req) (RaftNode.Id leader) n
  = Ok (true, resetElectionTimer n) ->
  checkPrevious (AppendRequest.PrevLogIndex req) (AppendRequest.PrevLogTerm req) n
  = Ok true ->
  ((AppendRequest.Entries req = [] /\ n2 = resetElectionTimer n) \/
   (AppendRequest.Entries req <> [] /\
    exists logStore,
      reconcileLogs (Log n) req = Ok logStore /\
      n2 = snd (setLog logStore (with_Log logStore (resetElectionTimer n))))) ->
  applyCommittedLogs (AppendRequest.LeaderCommit req) n2 = Ok n3 ->
  let n' := resetElectionTimer
              (if AppendRequest.Term req >? Term n3
               then SetTerm (AppendRequest.Term req) (Some leader) n3
               else n3) in
  HandleAppend req n = Ok (AppendReply.mk (Term n') true, n').
Proof.
  intros Hleader Hvalid Hmatch Hn2 Happly n'. unfold HandleAppend.
  rewrite Hleader. cbn. rewrite Hvalid. cbn.
  assert (checkPrevious (AppendRequest.PrevLogIndex req)
            (AppendRequest.PrevLogTerm req) (resetElectionTimer n) = Ok true) as ->.
  { rewrite <- Hmatch. reflexivity. }
  cbn. destruct Hn2 as [(Hnil & ->) | (Hne & logStore & Hrec & ->)].
  - rewrite Hnil. change (len (@nil LogRecord.t) >? 0) with false. cbn.
    change (with_Reset (S (Reset n)) (with_State Follower n))
      with (resetElectionTimer n).
    rewrite Happly. reflexivity.
  - assert ((len (AppendRequest.Entries req) >? 0) = true) as ->.
    { destruct (AppendRequest.Entries req); [congruence |].
      unfold len. cbn [length]. lia. }
    change (Log (resetElectionTimer n)) with (Log n). rewrite Hrec. cbn.
    cbn in Happly. rewrite Happly. reflexivity.
Qed.

(** An append of a higher term is valid. *)
Lemma validateAppend_higher_term (term : Z) (leaderId : string) (n : Node) :
  Term n < term ->
  validateAppend term leaderId n = Ok (true, resetElectionTimer n).
Proof.
  intros H. unfold validateAppend.
  destruct (Z.ltb_spec term (Term n)); [lia |].
  destruct (Z.eqb_spec term (Term n)); [lia |]. reflexivity.
Qed.

Lemma applyCommittedLogs_noop (commitIdx : Z) (n : Node) :
  commitIdx <= CommitIndex n -> applyCommittedLogs commitIdx n = Ok n.
Proof.
  intros H. unfold applyCommittedLogs.
  destruct (Z.gtb_spec commitIdx (CommitIndex n)); [lia | reflexivity].
Qed.

(** ** Commit index and log under appends *)

(** [HandleAppend] does not look at [CommitIndex] when it reconciles the
    log. Where the first incoming entry has another term than the local entry
    at its place, an accepted append leaves the log cut after [prevLogIndex]
    and followed by the entries of the request, whatever had been committed;
    a [leaderCommit] that is not above [CommitIndex] leaves [CommitIndex] as
    it was, also when it then points past the end of the log. Such an append
    of a higher term is accepted. *)
Theorem HandleAppend_replaces_conflicting_suffix (req : AppendRequest.t)
    (n : Node) (leader : RaftNode.t) (rec new : LogRecord.t)
    (more : list LogRecord.t) :
  AppendRequest.Leader req = Some leader ->
  -1 <= AppendRequest.PrevLogIndex req ->
  len (Log n) <= Int64.max_int ->
  AppendRequest.Entries req = new :: more ->
  Log n !! Z.to_nat (AppendRequest.PrevLogIndex req + 1) = Some rec ->
  LogRecord.Term rec <> LogRecord.Term new ->
  (forall reply n',
     HandleAppend req n = Ok (reply, n') ->
     AppendReply.Success reply = true ->
     Log n' = take (Z.to_nat (AppendRequest.PrevLogIndex req + 1)) (Log n)
              ++ AppendRequest.Entries req /\
     (AppendRequest.LeaderCommit req <= CommitIndex n ->
      CommitIndex n' = CommitIndex n)) /\
  (Term n < AppendRequest.Term req ->
   checkPrevious (AppendRequest.PrevLogIndex req) (AppendRequest.PrevLogTerm req) n
   = Ok true ->
   AppendRequest.LeaderCommit req <= CommitIndex n ->
   exists n',
     HandleAppend req n = Ok (AppendReply.mk (AppendRequest.Term req) true, n')).
Proof.
  intros Hleader Hprev Hmax Hentries Hrec Hterm.
  pose proof (lookup_lt_Some _ _ _ Hrec) as Hlt.
  assert (Hreconcile :
            reconcileLogs (Log n) req
            = Ok (take (Z.to_nat (AppendRequest.PrevLogIndex req + 1)) (Log n)
                  ++ AppendRequest.Entries req)).
  { rewrite reconcileLogs_result;
      [| rewrite Hleader; eauto | unfold len; lia | exact Hmax
       | rewrite Hentries; discriminate].
    rewrite (drop_S _ _ _ Hrec), Hentries. cbn.
    destruct (Z.eqb_spec (LogRecord.Term rec) (LogRecord.Term new)); [congruence |].
    cbn. rewrite Nat.add_0_r. reflexivity. }
  split.
  - intros reply n' H Htrue.
    apply HandleAppend_inv in H as (leader' & _ & _ & Hcases).
    destruct Hcases as [(Hfalse & _) | (n3 & _ & _ & -> & Hmatched)]; [congruence |].
    destruct Hmatched as [(Hfalse & _) | (_ & _ & n2 & Happly & Hn2)];
      [congruence |].
    destruct Hn2 as [(Hnil & _) | (_ & logStore & Hrec' & ->)]; [congruence |].
    rewrite Hreconcile in Hrec'. injection Hrec' as <-.
    split.
    + rewrite (applyCommittedLogs_only _ _ _ Happly).
      destruct (AppendRequest.Term req >? _); reflexivity.
    + intros Hlc. rewrite applyCommittedLogs_noop in Happly by exact Hlc.
      injection Happly as <-.
      destruct (AppendRequest.Term req >? _); reflexivity.
  - intros Hhigher Hmatch Hlc.
    assert (Hne : AppendRequest.Entries req <> [])
      by (rewrite Hentries; discriminate).
    set (logStore := take (Z.to_nat (AppendRequest.PrevLogIndex req + 1)) (Log n)
                     ++ AppendRequest.Entries req) in *.
    set (n2 := snd (setLog logStore (with_Log logStore (resetElectionTimer n)))).
    assert (Happly : applyCommittedLogs (AppendRequest.LeaderCommit req) n2 = Ok n2)
      by (apply applyCommittedLogs_noop; exact Hlc).
    pose proof (HandleAppend_accepted req n n2 n2 leader Hleader
                  (validateAppend_higher_term _ _ _ Hhigher) Hmatch
                  (or_intror (conj Hne (ex_intro _ _ (conj Hreconcile eq_refl))))
                  Happly) as H.
    cbn in H. eexists.
    assert ((AppendRequest.Term req >? Term n) = true) as Hgt by lia.
    rewrite Hgt in H. exact H.
Qed.

Lemma HandleAppend_replaces_conflicting_suffix_witness :
  exists n',
    HandleAppend Scenario.conflictingRequest Scenario.S4_after
    = Ok (AppendReply.mk 8 true, n') /\
    Log Scenario.S4_after = [Scenario.kv] /\ CommitIndex Scenario.S4_after = 0 /\
    Log n' = [Scenario.kw] /\ CommitIndex n' = 0.
Proof.
  destruct (HandleAppend_replaces_conflicting_suffix Scenario.conflictingRequest
              Scenario.S4_after Scenario.P2 Scenario.kv Scenario.kw [])
    as [Hlog Hexists].
  - reflexivity.
  - vm_compute. discriminate.
  - vm_compute. discriminate.
  - reflexivity.
  - reflexivity.
  - vm_compute. discriminate.
  - destruct Hexists as [n' Hn'].
    + vm_compute. reflexivity.
    + reflexivity.
    + vm_compute. discriminate.
    + exists n'. split; [exact Hn' |].
      destruct (Hlog _ _ Hn' eq_refl) as [Hl Hc].
      split; [reflexivity |]. split; [reflexivity |].
      split; [exact Hl |]. apply Hc. vm_compute. discriminate.
Defined.

(** ** The leader's application loop and [commitRecords] *)

(** The leader's loop on a state that keeps [-1 <= lastApplied] and
    [CommitIndex < len(log)]: it returns, [lastApplied] has reached
    [CommitIndex], and the store has taken the records in between, in the
    order of the log. *)
Lemma applyLoop_result (fuel : nat) (n : Node) :
  -1 <= lastApplied n ->
  CommitIndex n < len (Log n) ->
  len (Log n) <= Int64.max_int ->
  CommitIndex n - lastApplied n <= Z.of_nat fuel ->
  exists n',
    applyLoop fuel n = Ok n' /\
    lastApplied n' = Z.max (lastApplied n) (CommitIndex n) /\
    Store n'
    = applyAll (entriesBetween (Log n) (lastApplied n) (CommitIndex n)) (Store n).
Proof.
  revert n. induction fuel as [| fuel IH]; intros n Hla Hci Hmax Hfuel;
    cbn [applyLoop].
  - exists n. rewrite entriesBetween_nil by lia.
    split; [reflexivity |]. split; [lia | reflexivity].
  - destruct (Z.ltb_spec (lastApplied n) (CommitIndex n)) as [Hlt | Hge].
    2:{ exists n. rewrite entriesBetween_nil by lia.
        split; [reflexivity |]. split; [lia | reflexivity]. }
    assert (Hadd : Int64.add (lastApplied n) 1 = lastApplied n + 1).
    { unfold Int64.add. apply wrap_in_range.
      unfold Int64.in_range, Int64.min_int, Int64.max_int in *. lia. }
    rewrite Hadd. cbn.
    destruct (index_in_range (Log n) (lastApplied n + 1)) as (rec & Hrec & Hlookup);
      [lia |].
    rewrite Hrec. cbn.
    destruct (applyToStore_frame rec (with_lastApplied (lastApplied n + 1) n))
      as (_ & _ & Hl & Hc & Ha). cbn in Hl, Hc, Ha.
    destruct (IH (applyToStore rec (with_lastApplied (lastApplied n + 1) n)))
      as (n' & Hn' & Hla' & Hstore); rewrite ?Hl, ?Hc, ?Ha; try lia.
    exists n'. split; [exact Hn' |].
    rewrite Hc, Ha in Hla'. rewrite Hl, Hc, Ha in Hstore. split; [lia |].
    rewrite Hstore, applyToStore_Store. cbn [Store with_lastApplied].
    rewrite (entriesBetween_cons (Log n) (lastApplied n) (CommitIndex n) rec)
      by (try exact Hlookup; lia).
    reflexivity.
Qed.

(** [commitRecords] on a state that keeps [-1 <= lastApplied] and
    [CommitIndex < len(log)], for any number of peers. *)
Lemma commitRecords_result (n : Node) :
  -1 <= lastApplied n ->
  Int64.min_int <= CommitIndex n < len (Log n) ->
  len (Log n) <= Int64.max_int ->
  let majority := Z.of_nat (size (otherNodes n)) `quot` 2 + 1 in
  exists n',
    commitRecords n = Ok n' /\
    n' = with_Store (Store n')
           (with_lastApplied (lastApplied n')
              (with_CommitIndex (CommitIndex n') n)) /\
    CommitIndex n <= CommitIndex n' < len (Log n) /\
    lastApplied n' = Z.max (lastApplied n) (CommitIndex n') /\
    Store n'
    = applyAll (entriesBetween (Log n) (lastApplied n) (CommitIndex n')) (Store n) /\
    (CommitIndex n < CommitIndex n' -> majority <= matching (CommitIndex n') n) /\
    (forall i, CommitIndex n' < i < len (Log n) -> CommitIndex n < i ->
               matching i n < majority).
Proof.
  intros Hla Hci Hmax majority. unfold commitRecords. fold majority.
  assert (Hshape : forall i n0 n',
            applyLoop (Z.to_nat (CommitIndex (with_CommitIndex i n0) - lastApplied n0))
              (with_CommitIndex i n0) = Ok n' ->
            n' = with_Store (Store n')
                   (with_lastApplied (lastApplied n') (with_CommitIndex i n0))).
  { intros i n0 n' H. apply applyLoop_only in H. exact H. }
  destruct (commitScan_result (Z.to_nat (len (Log n) - 1 - CommitIndex n))
              majority (len (Log n) - 1) n)
    as [[Hscan Hnone] | (i & Hi & Hscan & Hmaj & Habove)]; try lia;
    rewrite Hscan; clear Hscan.
  - destruct (applyLoop_result (Z.to_nat (CommitIndex n - lastApplied n)) n)
      as (n' & Hn' & Hla' & Hstore); try lia.
    exists n'. split; [exact Hn' |].
    pose proof (applyLoop_only _ _ _ Hn') as Honly.
    destruct (applyLoop_frame _ _ _ Hn') as (Hc & _).
    rewrite Hc. split.
    { rewrite Honly at 1. destruct n; reflexivity. }
    split; [lia |]. split; [exact Hla' |]. split; [exact Hstore |].
    split; [lia |]. intros k Hk _. unfold matching.
    rewrite <- countMatching_filter. apply Hnone. lia.
  - cbn [CommitIndex with_CommitIndex lastApplied].
    destruct (applyLoop_result (Z.to_nat (i - lastApplied n)) (with_CommitIndex i n))
      as (n' & Hn' & Hla' & Hstore); cbn; try lia.
    exists n'. split; [exact Hn' |].
    pose proof (applyLoop_only _ _ _ Hn') as Honly.
    destruct (applyLoop_frame _ _ _ Hn') as (Hc & _). cbn in Hc, Hla', Hstore.
    rewrite Hc. split; [exact Honly |].
    split; [lia |]. split; [exact Hla' |]. split; [exact Hstore |].
    unfold matching. split.
    + intros _. rewrite <- countMatching_filter. exact Hmaj.
    + intros k Hk _. rewrite <- countMatching_filter. apply Habove. lia.
Qed.

(** ** Replication to one peer *)

Lemma setPeer_id (host : string) (peer : ForeignNode.t) (n : Node) :
  otherNodes n !! host = Some peer -> setPeer host peer n = n.
Proof.
  intros H. unfold setPeer. rewrite insert_id by exact H. destruct n; reflexivity.
Qed.

Lemma setPeer_setPeer (host : string) (peer peer' : ForeignNode.t) (n : Node) :
  setPeer host peer' (setPeer host peer n) = setPeer host peer' n.
Proof. unfold setPeer. cbn. rewrite insert_insert_eq. reflexivity. Qed.

Lemma slice_between_in_range {A : Type} (s : list A) (low high : Z) :
  0 <= low <= high -> high <= len s ->
  slice_between s low high = Ok (take (Z.to_nat (high - low)) (drop (Z.to_nat low) s)).
Proof.
  intros Hl Hh. unfold slice_between.
  destruct (Z.ltb_spec low 0); [lia |]. destruct (Z.ltb_spec high low); [lia |].
  destruct (Z.ltb_spec (len s) high); [lia |]. reflexivity.
Qed.

Section ReplicationProperties.

Context {World : Type}.
Variable AppendLogs :
  string -> AppendRequest.t -> World -> option AppendReply.t * World.

(** [requestAppend] for a peer whose match index is -1 or inside the log:
    it returns, and has changed nothing of the node but the bookkeeping of
    that peer. *)
Lemma requestAppendLoop_result (fuel : nat) (host : string) (term : Z)
    (n : Node) (w : World) (peer : ForeignNode.t) :
  otherNodes n !! host = Some peer ->
  -1 <= ForeignNode.MatchIndex peer < len (Log n) ->
  len (Log n) <= Int64.max_int ->
  ForeignNode.MatchIndex peer <= Z.of_nat fuel ->
  exists err peer' w',
    requestAppendLoop AppendLogs fuel host term n w
    = Ok (err, setPeer host peer' n, w') /\
    -1 <= ForeignNode.MatchIndex peer' < len (Log n) /\
    match err with
    | None =>
        State n = Leader /\ term = Term n /\
        peer' = ForeignNode.mk (len (Log n)) (len (Log n) - 1) true
    | Some ErrNotLeaderSend => State n = Follower /\ peer' = peer /\ w' = w
    | Some ErrExpiredTerm =>
        State n = Leader /\ term <> Term n /\ peer' = peer /\ w' = w
    | Some ErrAppendRangeMet =>
        State n = Leader /\ term = Term n /\
        peer' = ForeignNode.mk (ForeignNode.NextIndex peer)
                  (Z.min 0 (ForeignNode.MatchIndex peer)) false
    | Some ErrTransport =>
        State n = Leader /\ term = Term n /\
        exists m,
          -1 <= m <= ForeignNode.MatchIndex peer /\
          peer' = ForeignNode.mk (ForeignNode.NextIndex peer) m false
    | Some _ => False
    end.
Proof.
  revert n w peer.
  induction fuel as [| fuel IH]; intros n w peer Hpeer Hmatch Hmax Hfuel.
  all: cbn [requestAppendLoop]; rewrite Hpeer; cbn.
  all: assert (Hadd : Int64.add (ForeignNode.MatchIndex peer) 1
                      = ForeignNode.MatchIndex peer + 1)
         by (unfold Int64.add; apply wrap_in_range;
             unfold Int64.in_range, Int64.min_int, Int64.max_int in *; lia).
  all: assert (Hsub : Int64.sub (len (Log n)) 1 = len (Log n) - 1)
         by (pose proof (len_nonneg (Log n)); unfold Int64.sub;
             apply wrap_in_range;
             unfold Int64.in_range, Int64.min_int, Int64.max_int in *; lia).
  all: rewrite Hadd, slice_between_in_range by lia; cbn.
  all: assert (Hterm : exists prevLogTerm,
                 (if ForeignNode.MatchIndex peer >=? 0
                  then rec ← index (Log n) (ForeignNode.MatchIndex peer);
                       Ok (LogRecord.Term rec)
                  else Ok 0) = Ok prevLogTerm).
  1, 3: destruct (Z.geb_spec (ForeignNode.MatchIndex peer) 0);
        [destruct (index_in_range (Log n) (ForeignNode.MatchIndex peer))
           as (rec & -> & _); [lia | cbn; eauto] | eauto].
  all: destruct Hterm as [prevLogTerm ->]; cbn.
  all: destruct (State n) eqn:Hstate;
    [| exists (Some ErrNotLeaderSend), peer, w;
       rewrite setPeer_id by exact Hpeer;
       split; [reflexivity |]; split; [exact Hmatch |]; auto].
  all: destruct (Z.eqb_spec term (Term n)) as [Hterm | Hterm]; cbn;
    [| exists (Some ErrExpiredTerm), peer, w;
       rewrite setPeer_id by exact Hpeer;
       split; [reflexivity |]; split; [exact Hmatch |];
       split; [reflexivity |]; split; [exact Hterm |]; auto].
  all: match goal with
       | |- context [AppendLogs ?h ?r ?w] =>
           destruct (AppendLogs h r w) as [[reply |] w1]
       end.
  all: try (eexists (Some ErrTransport), _, w1; split; [reflexivity |];
            cbn; split; [lia |]; split; [reflexivity |]; split; [exact Hterm |];
            exists (ForeignNode.MatchIndex peer); split; [lia | reflexivity]).
  all: destruct (AppendReply.Success reply).
  all: try (eexists None, _, w1; rewrite Hsub; split; [reflexivity |];
            cbn; split; [lia |]; auto).
  all: destruct (Z.gtb_spec (ForeignNode.MatchIndex peer) 0) as [Hgt | Hle].
  all: try (eexists (Some ErrAppendRangeMet), _, w1; split; [reflexivity |];
            cbn; split; [lia |]; split; [reflexivity |]; split; [exact Hterm |];
            rewrite Z.min_r by lia; reflexivity).
  - lia.
  - assert (Hsub1 : Int64.sub (ForeignNode.MatchIndex peer) 1
                    = ForeignNode.MatchIndex peer - 1)
      by (unfold Int64.sub; apply wrap_in_range;
          unfold Int64.in_range, Int64.min_int, Int64.max_int in *; lia).
    rewrite Hsub1.
    set (peer1 := ForeignNode.mk (ForeignNode.NextIndex peer)
                    (ForeignNode.MatchIndex peer - 1) (ForeignNode.Available peer)).
    destruct (IH (setPeer host peer1 n) w1 peer1)
      as (err & peer' & w' & Hrun & Hin & Hcases); cbn; try lia.
    { apply lookup_insert_eq. }
    rewrite setPeer_setPeer in Hrun. exists err, peer', w'.
    split; [exact Hrun |]. split; [exact Hin |].
    destruct err as [[] |]; cbn in Hcases; try contradiction.
    + destruct Hcases as (H & _). congruence.
    + destruct Hcases as (_ & H & _). congruence.
    + destruct Hcases as (_ & _ & ->). split; [reflexivity |].
      split; [exact Hterm |]. rewrite !Z.min_l by lia. reflexivity.
    + destruct Hcases as (_ & _ & m & Hm & ->). split; [reflexivity |].
      split; [exact Hterm |]. exists m. split; [lia | reflexivity].
    + destruct Hcases as (_ & Hcases). split; [reflexivity | exact Hcases].
Qed.

(** ** Replication to every peer *)

(** The appends of [SendAppend] to the peers of [m], a part of the peers of
    the node: every call returns, the peers keep their names, their match
    indices stay inside the log, and each call counted has left its peer
    with the last index of the log as match index. *)
Lemma appendTo_fold (term : Z) (n : Node) (w : World)
    (m : gmap string ForeignNode.t) :
  peersInLog n ->
  len (Log n) <= Int64.max_int ->
  m ⊆ otherNodes n ->
  exists count m' w',
    map_fold (fun k _ acc => appendTo AppendLogs term k acc) (Ok (1, n, w)) m
    = Ok (count, with_otherNodes (m' ∪ otherNodes n) n, w') /\
    dom m' = dom m /\
    (forall host peer,
       m' !! host = Some peer ->
       -1 <= ForeignNode.MatchIndex peer < len (Log n)) /\
    1 <= count
    <= 1 + Z.of_nat (size (filter
                             (fun kv => len (Log n) - 1 <= ForeignNode.MatchIndex kv.2)
                             m')).
Proof.
  intros Hpeers Hmax.
  apply (map_fold_weak_ind
           (fun r (m : gmap string ForeignNode.t) =>
              m ⊆ otherNodes n ->
              exists count m' w',
                r = Ok (count, with_otherNodes (m' ∪ otherNodes n) n, w') /\
                dom m' = dom m /\
                (forall host peer,
                   m' !! host = Some peer ->
                   -1 <= ForeignNode.MatchIndex peer < len (Log n)) /\
                1 <= count
                <= 1 + Z.of_nat (size (filter
                       (fun kv => len (Log n) - 1 <= ForeignNode.MatchIndex kv.2)
                       m')))).
  - intros _. exists 1, ∅, w. rewrite (left_id_L ∅ (∪)).
    split; [destruct n; reflexivity |]. split; [reflexivity |].
    split; [intros host peer H; rewrite lookup_empty in H; discriminate |].
    rewrite map_filter_empty, map_size_empty. lia.
  - intros i x m0 r Hi IH Hsub.
    assert (Hsub0 : m0 ⊆ otherNodes n).
    { etransitivity; [apply (insert_subseteq m0 i x Hi) | exact Hsub]. }
    destruct (IH Hsub0) as (count & m' & w' & -> & Hdom & Hin & Hcount).
    assert (Hx : otherNodes n !! i = Some x).
    { eapply lookup_weaken; [apply lookup_insert_eq | exact Hsub]. }
    assert (Hi' : m' !! i = None).
    { apply not_elem_of_dom. rewrite Hdom. apply not_elem_of_dom. exact Hi. }
    unfold appendTo. cbn. unfold requestAppend. cbn.
    rewrite (lookup_union_r m' (otherNodes n) i Hi'), Hx.
    destruct (requestAppendLoop_result
                (Z.to_nat (ForeignNode.MatchIndex x)) i term
                (with_otherNodes (m' ∪ otherNodes n) n) w' x)
      as (err & peer' & w'' & -> & Hin' & Hcases); cbn.
    { rewrite (lookup_union_r m' (otherNodes n) i Hi'). exact Hx. }
    { exact (Hpeers i x Hx). }
    { exact Hmax. }
    { lia. }
    cbn in Hin'.
    assert (Hnode : setPeer i peer' (with_otherNodes (m' ∪ otherNodes n) n)
                    = with_otherNodes (<[i := peer']> m' ∪ otherNodes n) n).
    { unfold setPeer. cbn. rewrite insert_union_l. reflexivity. }
    rewrite Hnode.
    assert (Hin'' : forall host peer,
              <[i := peer']> m' !! host = Some peer ->
              -1 <= ForeignNode.MatchIndex peer < len (Log n)).
    { intros host peer. destruct (decide (i = host)) as [<- | Hne].
      - rewrite lookup_insert_eq. intros [= <-]. exact Hin'.
      - rewrite lookup_insert_ne by exact Hne. apply Hin. }
    assert (Hsize : (size (filter
                       (fun kv => (len (Log n) - 1 <= ForeignNode.MatchIndex kv.2)%Z)
                       m')
                     <= size (filter
                       (fun kv => (len (Log n) - 1 <= ForeignNode.MatchIndex kv.2)%Z)
                       (<[i := peer']> m')))%nat).
    { rewrite map_filter_insert. cbn.
      destruct (decide (len (Log n) - 1 <= ForeignNode.MatchIndex peer')).
      - rewrite map_size_insert_None
          by (apply map_lookup_filter_None; left; exact Hi').
        lia.
      - rewrite delete_id by exact Hi'. lia. }
    destruct err as [e |].
    + exists count, (<[i := peer']> m'), w''. split; [reflexivity |].
      split; [rewrite !dom_insert_L, Hdom; reflexivity |].
      split; [exact Hin'' | lia].
    + exists (count + 1), (<[i := peer']> m'), w''. split; [reflexivity |].
      split; [rewrite !dom_insert_L, Hdom; reflexivity |].
      split; [exact Hin'' |].
      destruct Hcases as (_ & _ & ->).
      rewrite map_filter_insert_True by (cbn; lia).
      rewrite map_size_insert_None
        by (apply map_lookup_filter_None; left; exact Hi').
      lia.
Qed.

Lemma union_same_dom (m' m : gmap string ForeignNode.t) :
  dom m' = dom m -> m' ∪ m = m'.
Proof.
  intros Hdom. apply map_eq. intros i. rewrite lookup_union.
  destruct (m' !! i) as [x |] eqn:Hx; destruct (m !! i) as [y |] eqn:Hy;
    try reflexivity.
  exfalso. apply (not_elem_of_dom m' i); [exact Hx |].
  rewrite Hdom. apply elem_of_dom. eauto.
Qed.

(** Once the appends have been counted as a majority, [commitRecords]
    commits the whole log. *)
Lemma commit_after_appends (n : Node) (m' : gmap string ForeignNode.t)
    (count : Z) :
  dom m' = dom (otherNodes n) ->
  (forall host peer,
     m' !! host = Some peer ->
     -1 <= ForeignNode.MatchIndex peer < len (Log n)) ->
  -1 <= lastApplied n ->
  Int64.min_int <= CommitIndex n < len (Log n) ->
  len (Log n) <= Int64.max_int ->
  count <= 1 + Z.of_nat (size (filter
                 (fun kv => len (Log n) - 1 <= ForeignNode.MatchIndex kv.2) m')) ->
  Z.of_nat (size (otherNodes n)) `quot` 2 + 1 <= count ->
  exists n',
    commitRecords (with_otherNodes m' n) = Ok n' /\
    n' = with_Store (Store n')
           (with_lastApplied (lastApplied n')
              (with_CommitIndex (CommitIndex n')
                 (with_otherNodes (otherNodes n') n))) /\
    otherNodes n' = m' /\
    CommitIndex n' = len (Log n) - 1 /\
    lastApplied n' = Z.max (lastApplied n) (CommitIndex n') /\
    Store n'
    = applyAll (entriesBetween (Log n) (lastApplied n) (CommitIndex n')) (Store n) /\
    Z.of_nat (size (otherNodes n)) `quot` 2 + 1 <= matching (len (Log n) - 1) n'.
Proof.
  intros Hdom Hin Hla Hci Hmax Hcount Hmaj.
  assert (Hsize : size m' = size (otherNodes n))
    by (rewrite <- !(size_dom (D := gset string)), Hdom; reflexivity).
  destruct (commitRecords_result (with_otherNodes m' n) Hla Hci Hmax)
    as (n' & Hrun & Hn' & Hci' & Hla' & Hstore & _ & Habove).
  cbn in Hci', Hla', Hstore, Habove.
  assert (Hother : otherNodes n' = m') by (rewrite Hn'; reflexivity).
  exists n'. split; [exact Hrun |].
  split; [etransitivity; [exact Hn' |]; rewrite Hother; destruct n; reflexivity |].
  split; [exact Hother |].
  assert (Hmatching : Z.of_nat (size (otherNodes n)) `quot` 2 + 1
                      <= matching (len (Log n) - 1) n').
  { unfold matching. rewrite Hother. lia. }
  split; [| split; [exact Hla' |]; split; [exact Hstore | exact Hmatching]].
  destruct (Z.eq_dec (CommitIndex n') (len (Log n) - 1)) as [Heq | Hne];
    [exact Heq |].
  specialize (Habove (len (Log n) - 1)).
  unfold matching in Habove, Hmatching. cbn in Habove.
  rewrite Hother in Hmatching. rewrite Hsize in Habove. lia.
Qed.

(** [SendAppend] on a leader that keeps the match indices of its peers
    inside its log, [-1 <= lastApplied] and [CommitIndex < len(log)]. *)
Lemma SendAppendLoop_result (fuel : nat) (retriesRemaining term : Z)
    (n : Node) (w : World) :
  peersInLog n ->
  -1 <= lastApplied n ->
  Int64.min_int <= CommitIndex n < len (Log n) ->
  len (Log n) <= Int64.max_int ->
  retriesRemaining <= Z.of_nat fuel ->
  exists err n' w',
    SendAppendLoop AppendLogs fuel retriesRemaining term n w = Ok (err, n', w') /\
    n' = with_Store (Store n')
           (with_lastApplied (lastApplied n')
              (with_CommitIndex (CommitIndex n')
                 (with_otherNodes (otherNodes n') n))) /\
    dom (otherNodes n') = dom (otherNodes n) /\
    peersInLog n' /\
    match err with
    | None =>
        State n = Leader /\
        CommitIndex n' = len (Log n) - 1 /\
        lastApplied n' = Z.max (lastApplied n) (CommitIndex n') /\
        Store n'
        = applyAll (entriesBetween (Log n) (lastApplied n) (CommitIndex n'))
            (Store n) /\
        Z.of_nat (size (otherNodes n)) `quot` 2 + 1
        <= matching (len (Log n) - 1) n'
    | Some ErrNotLeaderSend => State n = Follower /\ n' = n /\ w' = w
    | Some ErrAppendFailed =>
        State n = Leader /\
        CommitIndex n' = CommitIndex n /\ lastApplied n' = lastApplied n /\
        Store n' = Store n /\
        2 <= Z.of_nat (size (otherNodes n))
    | Some _ => False
    end.
Proof.
  revert retriesRemaining n w.
  induction fuel as [| fuel IH];
    intros retriesRemaining n w Hpeers Hla Hci Hmax Hfuel.
  all: cbn [SendAppendLoop].
  all: destruct (State n) eqn:Hstate;
    [| exists (Some ErrNotLeaderSend), n, w; split; [reflexivity |];
       split; [destruct n; reflexivity |]; split; [reflexivity |];
       split; [exact Hpeers | auto]].
  all: destruct (appendTo_fold term n w (otherNodes n) Hpeers Hmax)
         as (count & m' & w' & -> & Hdom & Hin & Hcount); [reflexivity |].
  all: rewrite (union_same_dom _ _ Hdom); cbn.
  all: set (n1 := with_otherNodes m' n).
  all: assert (Hpeers1 : peersInLog n1) by (intros host peer; apply Hin).
  all: destruct (Z.geb_spec count (Z.of_nat (size (otherNodes n)) `quot` 2 + 1))
         as [Hmaj | Hmin].
  1, 3: destruct (commit_after_appends n m' count)
          as (n' & Hrun & Hn' & Hother & Hrest); try assumption; try lia;
        subst n1; rewrite Hrun; cbn;
        exists None, n', w'; split; [reflexivity |];
        split; [exact Hn' |]; split; [rewrite Hother; exact Hdom |];
        split; [intros host peer Hp; rewrite Hother in Hp; apply Hin in Hp;
                rewrite Hn'; cbn; exact Hp |];
        split; [reflexivity | exact Hrest].
  all: assert (Hsize : 2 <= Z.of_nat (size (otherNodes n)))
         by (destruct (Z.le_gt_cases 2 (Z.of_nat (size (otherNodes n))))
               as [Hle | Hgt]; [exact Hle |];
             rewrite Z.quot_small in Hmin by lia; lia).
  all: destruct (Z.gtb_spec retriesRemaining 0) as [Hgt | Hle].
  all: try (exists (Some ErrAppendFailed), n1, w'; split; [reflexivity |];
            split; [subst n1; destruct n; reflexivity |]; split; [exact Hdom |];
            split; [exact Hpeers1 |]; cbn; auto).
  destruct (IH (retriesRemaining - 1) n1 w')
    as (err & n' & w'' & -> & Hn' & Hdom' & Hpeers' & Hcases);
    try assumption; [lia |].
  exists err, n', w''. split; [reflexivity |].
  split; [etransitivity; [exact Hn' |]; subst n1; destruct n; reflexivity |].
  split; [rewrite Hdom'; exact Hdom |]. split; [exact Hpeers' |].
  destruct err as [[] |]; cbn in Hcases; try contradiction.
  - destruct Hcases as (H & _). cbn in H. congruence.
  - destruct Hcases as (_ & Hc & Hl & Hs & _). auto.
  - destruct Hcases as (_ & Hc & Hl & Hs & Hm). split; [reflexivity |].
    split; [exact Hc |]. split; [exact Hl |]. split; [exact Hs |].
    change (Log n1) with (Log n) in Hm. change (otherNodes n1) with m' in Hm.
    assert (Hsz : size m' = size (otherNodes n))
      by (rewrite <- !(size_dom (D := gset string)), Hdom; reflexivity).
    rewrite Hsz in Hm. exact Hm.
Qed.

(** ** Client writes *)

Lemma len_app_one (log : list LogRecord.t) (record : LogRecord.t) :
  len (log ++ [record]) = len log + 1.
Proof. unfold len. rewrite length_app. cbn. lia. Qed.

(** [applyRecord] on a leader that keeps the match indices of its peers
    inside its log, [-1 <= lastApplied] and [CommitIndex < len(log)]. *)
Lemma applyRecord_result (record : LogRecord.t) (n : Node) (w : World) :
  State n = Leader ->
  peersInLog n ->
  -1 <= lastApplied n ->
  Int64.min_int <= CommitIndex n < len (Log n) ->
  len (Log n) < Int64.max_int ->
  exists err n' w',
    applyRecord AppendLogs record n w = Ok (err, n', w') /\
    n' = with_Store (Store n')
           (with_lastApplied (lastApplied n')
              (with_CommitIndex (CommitIndex n')
                 (with_otherNodes (otherNodes n')
                    (snd (setLog (Log n ++ [record]) n))))) /\
    dom (otherNodes n') = dom (otherNodes n) /\
    peersInLog n' /\
    match err with
    | None =>
        CommitIndex n' = len (Log n) /\
        lastApplied n' = Z.max (lastApplied n) (len (Log n)) /\
        Store n'
        = applyAll (entriesBetween (Log n ++ [record]) (lastApplied n) (len (Log n)))
            (Store n) /\
        Z.of_nat (size (otherNodes n)) `quot` 2 + 1 <= matching (len (Log n)) n'
    | Some ErrAppendFailed =>
        CommitIndex n' = CommitIndex n /\ lastApplied n' = lastApplied n /\
        Store n' = Store n /\
        2 <= Z.of_nat (size (otherNodes n))
    | Some _ => False
    end.
Proof.
  intros Hstate Hpeers Hla Hci Hmax. unfold applyRecord. rewrite Hstate.
  pose proof (len_app_one (Log n) record) as Hlen.
  set (n2 := snd (setLog (Log n ++ [record]) n)).
  change (setLog (Log n ++ [record]) n) with (len (Log n ++ [record]) - 1, n2).
  cbv iota beta. unfold SendAppend.
  destruct (SendAppendLoop_result (Z.to_nat 3) 3 (Term n2) n2 w)
    as (err & n' & w' & -> & Hn' & Hdom & Hpeers' & Hcases).
  { intros host peer H. specialize (Hpeers host peer H).
    cbv beta in Hpeers |- *. change (Log n2) with (Log n ++ [record]).
    rewrite Hlen. lia. }
  { exact Hla. }
  { cbn. lia. }
  { cbn. lia. }
  { lia. }
  cbn in Hcases. rewrite Hlen in Hcases.
  destruct err as [[] |]; cbn; try contradiction.
  - destruct Hcases as (H & _). congruence.
  - exists (Some ErrAppendFailed), n', w'. split; [reflexivity |].
    split; [exact Hn' |]. split; [exact Hdom |]. split; [exact Hpeers' |].
    destruct Hcases as (_ & Hcases). exact Hcases.
  - destruct Hcases as (_ & Hc & Hl & Hs & Hm).
    replace (len (Log n) + 1 - 1) with (len (Log n)) in Hc, Hm by lia.
    rewrite Hlen, Hc.
    destruct (Z.ltb_spec (len (Log n)) (len (Log n) + 1 - 1)); [lia |].
    exists None, n', w'. split; [reflexivity |].
    split; [exact Hn' |]. split; [exact Hdom |]. split; [exact Hpeers' |].
    rewrite Hc in Hl, Hs. auto.
Qed.

Lemma entriesBetween_app_one (log : list LogRecord.t) (record : LogRecord.t)
    (lo : Z) :
  -1 <= lo < len log ->
  entriesBetween (log ++ [record]) lo (len log)
  = entriesBetween log lo (len log - 1) ++ [record].
Proof.
  intros Hlo. unfold entriesBetween, len in *.
  rewrite drop_app_le by lia.
  rewrite !take_ge; [reflexivity | |].
  - rewrite length_drop. lia.
  - rewrite length_app, length_drop. cbn. lia.
Qed.

Lemma applyAll_app (xs ys : list LogRecord.t) (store : Database.t) :
  applyAll (xs ++ ys) store = applyAll ys (applyAll xs store).
Proof. unfold applyAll. apply foldl_app. Qed.

(** [requestAppend] to a peer whose match index is -1 or an index of the
    log returns, whatever the peer answers, and changes nothing of the node
    but the bookkeeping of that peer. When it returns nil the peer has the
    last index of the log as match index and the length of the log as next
    index. With [ErrNotLeaderSend] or [ErrExpiredTerm] nothing was sent and
    nothing has changed. With any other error the peer is marked unavailable
    and its match index, which the retries count down, is not above the one
    it had and not below -1. The length of the log is one a Go slice can
    have. *)
Theorem requestAppend_updates_peer (host : string) (term : Z) (n : Node)
    (w : World) (peer : ForeignNode.t) :
  otherNodes n !! host = Some peer ->
  -1 <= ForeignNode.MatchIndex peer < len (Log n) ->
  len (Log n) <= Int64.max_int ->
  exists err peer' w',
    requestAppend AppendLogs host term n w = Ok (err, setPeer host peer' n, w') /\
    match err with
    | None =>
        State n = Leader /\ term = Term n /\
        peer' = ForeignNode.mk (len (Log n)) (len (Log n) - 1) true
    | Some ErrNotLeaderSend => State n = Follower /\ peer' = peer /\ w' = w
    | Some ErrExpiredTerm =>
        State n = Leader /\ term <> Term n /\ peer' = peer /\ w' = w
    | Some _ =>
        State n = Leader /\ term = Term n /\
        ForeignNode.NextIndex peer' = ForeignNode.NextIndex peer /\
        ForeignNode.Available peer' = false /\
        -1 <= ForeignNode.MatchIndex peer' <= ForeignNode.MatchIndex peer
    end.
Proof.
  intros Hpeer Hmatch Hmax. unfold requestAppend. rewrite Hpeer.
  destruct (requestAppendLoop_result (Z.to_nat (ForeignNode.MatchIndex peer))
              host term n w peer Hpeer Hmatch Hmax)
    as (err & peer' & w' & Hrun & Hin & Hcases); [lia |].
  exists err, peer', w'. split; [exact Hrun |].
  destruct err as [[] |]; try contradiction; try exact Hcases.
  - destruct Hcases as (Hs & Ht & ->). cbn. repeat split; try assumption; lia.
  - destruct Hcases as (Hs & Ht & m & Hm & ->). cbn.
    repeat split; try assumption; lia.
Qed.

(** [SendAppend], with any number of retries, on a node that keeps the match
    indices of its peers inside its log, [-1 <= lastApplied] and
    [CommitIndex < len(log)]: it returns, whatever the peers answer, with
    nil, [ErrNotLeaderSend] or [ErrAppendFailed], and changes nothing of the
    node but the bookkeeping of the peers, [CommitIndex], [lastApplied] and
    the store. When it returns nil the whole log is committed and applied,
    in order, and the leader counts itself and the peers whose match index
    is the last index of the log as at least [len(peers)/2 + 1]. When it
    returns [ErrAppendFailed] nothing was committed or applied, and there
    are at least two peers. [CommitIndex] is an [int64] and the length of
    the log is one a Go slice can have. *)
Theorem SendAppend_commits_log (retriesRemaining term : Z) (n : Node)
    (w : World) :
  peersInLog n ->
  -1 <= lastApplied n ->
  Int64.min_int <= CommitIndex n < len (Log n) ->
  len (Log n) <= Int64.max_int ->
  exists err n' w',
    SendAppend AppendLogs retriesRemaining term n w = Ok (err, n', w') /\
    n' = with_Store (Store n')
           (with_lastApplied (lastApplied n')
              (with_CommitIndex (CommitIndex n')
                 (with_otherNodes (otherNodes n') n))) /\
    dom (otherNodes n') = dom (otherNodes n) /\
    peersInLog n' /\
    match err with
    | None =>
        State n = Leader /\
        CommitIndex n' = len (Log n) - 1 /\
        lastApplied n' = Z.max (lastApplied n) (CommitIndex n') /\
        Store n'
        = applyAll (entriesBetween (Log n) (lastApplied n) (CommitIndex n'))
            (Store n) /\
        Z.of_nat (size (otherNodes n)) `quot` 2 + 1
        <= matching (len (Log n) - 1) n'
    | Some ErrNotLeaderSend => State n = Follower /\ n' = n /\ w' = w
    | Some ErrAppendFailed =>
        State n = Leader /\
        CommitIndex n' = CommitIndex n /\ lastApplied n' = lastApplied n /\
        Store n' = Store n /\
        2 <= Z.of_nat (size (otherNodes n))
    | Some _ => False
    end.
Proof.
  intros Hpeers Hla Hci Hmax. unfold SendAppend.
  apply SendAppendLoop_result; try assumption. lia.
Qed.

(** What a client write leaves on a leader, whatever it returns: the record
    at the end of the log, in memory and on disk, and the term, the vote and
    the role as they were. *)
Lemma applyRecord_appends (record : LogRecord.t) (n n' : Node) :
  n' = with_Store (Store n')
         (with_lastApplied (lastApplied n')
            (with_CommitIndex (CommitIndex n')
               (with_otherNodes (otherNodes n')
                  (snd (setLog (Log n ++ [record]) n))))) ->
  Log n' = Log n ++ [record] /\ ReadLogs (disk n') = Log n' /\
  ReadTerm (disk n') = ReadTerm (disk n) /\
  Term n' = Term n /\ votedFor n' = votedFor n /\ State n' = State n.
Proof. intros ->. cbn. repeat split. Qed.

(** [Set] on a follower is refused and changes nothing. On a leader that
    keeps the match indices of its peers inside its log and
    [-1 <= lastApplied <= CommitIndex < len(log)] it returns, whatever the
    peers answer, with nil or [ErrAppendFailed], never [ErrCommitFailed];
    either way the record is at the end of the log, in memory and on disk,
    and is not taken back. When it returns nil the record is committed and
    applied, the key reads the value, and the leader counts itself and the
    peers that have the record as at least [len(peers)/2 + 1]. When it
    returns [ErrAppendFailed] nothing was committed or applied. The length
    of the log stays one a Go slice can have. *)
Theorem Set_then_Get (key value : string) (n : Node) (w : World) :
  (State n = Follower ->
   Set_ AppendLogs key value n w = Ok (Some ErrNotLeaderRecv, n, w)) /\
  (State n = Leader ->
   peersInLog n ->
   -1 <= lastApplied n <= CommitIndex n ->
   CommitIndex n < len (Log n) ->
   len (Log n) < Int64.max_int ->
   exists err n' w',
     Set_ AppendLogs key value n w = Ok (err, n', w') /\
     Log n' = Log n ++ [LogRecord.mk (Term n) SET key value] /\
     ReadLogs (disk n') = Log n' /\
     Term n' = Term n /\ State n' = Leader /\ peersInLog n' /\
     match err with
     | None =>
         CommitIndex n' = len (Log n) /\ lastApplied n' = len (Log n) /\
         Database.Get key (Store n') = Some value /\
         Z.of_nat (size (otherNodes n)) `quot` 2 + 1 <= matching (len (Log n)) n'
     | Some ErrAppendFailed =>
         CommitIndex n' = CommitIndex n /\ lastApplied n' = lastApplied n /\
         Store n' = Store n
     | Some _ => False
     end).
Proof.
  split.
  - intros Hstate. unfold Set_, applyRecord. rewrite Hstate. reflexivity.
  - intros Hstate Hpeers Hla Hci Hmax. unfold Set_.
    destruct (applyRecord_result (LogRecord.mk (Term n) SET key value) n w)
      as (err & n' & w' & Hrun & Hn' & _ & Hpeers' & Hcases);
      try assumption; try (unfold Int64.min_int; lia).
    exists err, n', w'. split; [exact Hrun |].
    destruct (applyRecord_appends _ _ _ Hn') as (Hlog & Hdisk & _ & Hterm & _ & Hst).
    split; [exact Hlog |]. split; [exact Hdisk |]. split; [exact Hterm |].
    split; [congruence |]. split; [exact Hpeers' |].
    destruct err as [[] |]; try contradiction.
    + destruct Hcases as (Hc & Hl & Hs & _). auto.
    + destruct Hcases as (Hc & Hl & Hs & Hm).
      split; [exact Hc |]. split; [lia |]. split; [| exact Hm].
      rewrite Hs, entriesBetween_app_one, applyAll_app by lia.
      unfold Database.Get. cbn. apply lookup_insert_eq.
Qed.

(** [Delete], like [Set]: refused on a follower; on such a leader the record
    stays at the end of the log whatever is returned, and when nil is
    returned the record is committed and applied and the key is not in the
    store. *)
Theorem Delete_then_Get (key : string) (n : Node) (w : World) :
  (State n = Follower ->
   Delete AppendLogs key n w = Ok (Some ErrNotLeaderRecv, n, w)) /\
  (State n = Leader ->
   peersInLog n ->
   -1 <= lastApplied n <= CommitIndex n ->
   CommitIndex n < len (Log n) ->
   len (Log n) < Int64.max_int ->
   exists err n' w',
     Delete AppendLogs key n w = Ok (err, n', w') /\
     Log n' = Log n ++ [LogRecord.mk (Term n) DEL key ""] /\
     ReadLogs (disk n') = Log n' /\
     Term n' = Term n /\ State n' = Leader /\ peersInLog n' /\
     match err with
     | None =>
         CommitIndex n' = len (Log n) /\ lastApplied n' = len (Log n) /\
         Database.Get key (Store n') = None /\
         Z.of_nat (size (otherNodes n)) `quot` 2 + 1 <= matching (len (Log n)) n'
     | Some ErrAppendFailed =>
         CommitIndex n' = CommitIndex n /\ lastApplied n' = lastApplied n /\
         Store n' = Store n
     | Some _ => False
     end).
Proof.
  split.
  - intros Hstate. unfold Delete, applyRecord. rewrite Hstate. reflexivity.
  - intros Hstate Hpeers Hla Hci Hmax. unfold Delete.
    destruct (applyRecord_result (LogRecord.mk (Term n) DEL key "") n w)
      as (err & n' & w' & Hrun & Hn' & _ & Hpeers' & Hcases);
      try assumption; try (unfold Int64.min_int; lia).
    exists err, n', w'. split; [exact Hrun |].
    destruct (applyRecord_appends _ _ _ Hn') as (Hlog & Hdisk & _ & Hterm & _ & Hst).
    split; [exact Hlog |]. split; [exact Hdisk |]. split; [exact Hterm |].
    split; [congruence |]. split; [exact Hpeers' |].
    destruct err as [[] |]; try contradiction.
    + destruct Hcases as (Hc & Hl & Hs & _). auto.
    + destruct Hcases as (Hc & Hl & Hs & Hm).
      split; [exact Hc |]. split; [lia |]. split; [| exact Hm].
      rewrite Hs, entriesBetween_app_one, applyAll_app by lia.
      unfold Database.Get. cbn. apply lookup_delete_eq.
Qed.

(** A leader with at most one peer needs no answer: on such a leader a
    client write returns nil, committed and applied, whatever the peer
    answers and also when it cannot be reached. *)
Theorem write_needs_no_peer_of_one (record : LogRecord.t) (n : Node)
    (w : World) :
  State n = Leader ->
  (size (otherNodes n) <= 1)%nat ->
  peersInLog n ->
  -1 <= lastApplied n <= CommitIndex n ->
  CommitIndex n < len (Log n) ->
  len (Log n) < Int64.max_int ->
  exists n' w',
    applyRecord AppendLogs record n w = Ok (None, n', w') /\
    Log n' = Log n ++ [record] /\
    CommitIndex n' = len (Log n) /\ lastApplied n' = len (Log n).
Proof.
  intros Hstate Hsize Hpeers Hla Hci Hmax.
  destruct (applyRecord_result record n w)
    as (err & n' & w' & Hrun & Hn' & _ & _ & Hcases);
    try assumption; try (unfold Int64.min_int; lia).
  destruct (applyRecord_appends _ _ _ Hn') as (Hlog & _).
  destruct err as [[] |]; try contradiction.
  - destruct Hcases as (_ & _ & _ & H). lia.
  - destruct Hcases as (Hc & Hl & _). exists n', w'.
    split; [exact Hrun |]. split; [exact Hlog |]. split; [exact Hc | lia].
Qed.

End ReplicationProperties.

Lemma leaderOfTwo_peersInLog : peersInLog Scenario.leaderOfTwo.
Proof. apply map_Forall_singleton. vm_compute. split; [discriminate | reflexivity]. Qed.

Lemma requestAppend_updates_peer_witness :
  exists peer' w',
    requestAppend Scenario.unreachablePeers "L:16990" 7 Scenario.leaderOfTwo tt
    = Ok (Some ErrTransport, setPeer "L:16990" peer' Scenario.leaderOfTwo, w') /\
    ForeignNode.Available peer' = false.
Proof.
  destruct (requestAppend_updates_peer Scenario.unreachablePeers "L:16990" 7
              Scenario.leaderOfTwo tt (ForeignNode.mk 0 (-1) false))
    as (err & peer' & w' & Hrun & Hcases).
  - reflexivity.
  - vm_compute. split; [discriminate | reflexivity].
  - vm_compute. discriminate.
  - destruct err as [[] |]; try (exfalso; vm_compute in Hrun; discriminate).
    exists peer', w'. split; [exact Hrun | apply Hcases].
Defined.

Lemma SendAppend_commits_log_witness :
  exists n' w',
    SendAppend Scenario.acceptingPeers 3 7 Scenario.leaderOfTwo tt
    = Ok (None, n', w') /\
    CommitIndex n' = 0 /\ Store n' = <["k"%string := "v"%string]> ∅.
Proof.
  destruct (SendAppend_commits_log Scenario.acceptingPeers 3 7
              Scenario.leaderOfTwo tt)
    as (err & n' & w' & Hrun & _ & _ & _ & Hcases).
  - exact leaderOfTwo_peersInLog.
  - vm_compute. discriminate.
  - vm_compute. split; [discriminate | reflexivity].
  - vm_compute. discriminate.
  - destruct err as [e |]; [exfalso; vm_compute in Hrun; discriminate |].
    exists n', w'. split; [exact Hrun |].
    destruct Hcases as (_ & Hc & _ & Hs & _). split; [exact Hc |].
    rewrite Hs, Hc. reflexivity.
Defined.

Lemma Set_then_Get_witness :
  exists n' w',
    Set_ Scenario.acceptingPeers "k" "w" Scenario.leaderOfTwo tt
    = Ok (None, n', w') /\
    Database.Get "k" (Store n') = Some "w"%string.
Proof.
  destruct (proj2 (Set_then_Get Scenario.acceptingPeers "k" "w"
                     Scenario.leaderOfTwo tt))
    as (err & n' & w' & Hrun & _ & _ & _ & _ & _ & Hcases).
  - reflexivity.
  - exact leaderOfTwo_peersInLog.
  - vm_compute. split; discriminate.
  - vm_compute. reflexivity.
  - vm_compute. reflexivity.
  - destruct err as [e |]; [exfalso; vm_compute in Hrun; discriminate |].
    exists n', w'. split; [exact Hrun | apply Hcases].
Defined.

Lemma Delete_then_Get_witness :
  exists n' w',
    Delete Scenario.acceptingPeers "k" Scenario.leaderOfTwo tt
    = Ok (None, n', w') /\
    Database.Get "k" (Store n') = None.
Proof.
  destruct (proj2 (Delete_then_Get Scenario.acceptingPeers "k"
                     Scenario.leaderOfTwo tt))
    as (err & n' & w' & Hrun & _ & _ & _ & _ & _ & Hcases).
  - reflexivity.
  - exact leaderOfTwo_peersInLog.
  - vm_compute. split; discriminate.
  - vm_compute. reflexivity.
  - vm_compute. reflexivity.
  - destruct err as [e |]; [exfalso; vm_compute in Hrun; discriminate |].
    exists n', w'. split; [exact Hrun | apply Hcases].
Defined.

Lemma write_needs_no_peer_of_one_witness :
  exists n' w',
    applyRecord Scenario.unreachablePeers Scenario.kw Scenario.leaderOfTwo tt
    = Ok (None, n', w') /\
    CommitIndex n' = 1.
Proof.
  destruct (write_needs_no_peer_of_one Scenario.unreachablePeers Scenario.kw
              Scenario.leaderOfTwo tt)
    as (n' & w' & Hrun & _ & Hc & _).
  - reflexivity.
  - vm_compute. lia.
  - exact leaderOfTwo_peersInLog.
  - vm_compute. split; discriminate.
  - vm_compute. reflexivity.
  - vm_compute. reflexivity.
  - exists n', w'. split; [exact Hrun | exact Hc].
Defined.
